(** * Admission queue of the clinic server (server.js)

    A shallow embedding of the admission / eviction controller of
    [server.js]: the [tokens] table and its serial sequence, the SQL
    statements the handlers issue, and the handlers themselves
    ([/api/checkin], [/api/admit/:token], [/api/remove/:token],
    [/api/next]), followed by the properties of the queue.

    Modelling conventions.
    - The [tokens] table is a list of rows in storage order; [id] is its
      primary key and [token] carries a UNIQUE constraint (both are state
      predicates below, and INSERT refuses to break them).
    - Integers ([id], counts, [MAX_ALLOWED], the batch size) are [Z];
      timestamps are [Z] and a nullable timestamp is an [option Z].  The
      store's ranges are written out where a value is handed to it: an
      INT column and the serial sequence stop at [2^31 - 1], the LIMIT
      a request supplies at [2^63 - 1].
    - [NOW()] is the start time of the current transaction, so a handler
      takes the time [now] of its transaction as an argument and every
      [NOW()] of that transaction reads it.
    - A handler runs one transaction at a time: ROLLBACK restores the table
      as it was at BEGIN; the sequence is not restored (sequence operations
      are never rolled back by the store).
    - Strings are ASCII text: [trim] removes the ASCII white space and
      [toUpperCase] maps [a-z] to [A-Z]; the character NUL, which the
      store takes in no text, is outside the model. *)

From Stdlib Require Import ZArith List String Ascii Bool Lia Permutation Sorted.
From Stdlib Require Import Decimal DecimalString.
From Stdlib Require DecimalPos DecimalZ.
Import ListNotations.

#[local] Open Scope Z_scope.

(** ** Strings: [String.prototype.trim] and [toUpperCase] *)

Module Str.

Definition is_space (c : ascii) : bool :=
  let n := nat_of_ascii c in
  ((9 <=? n) && (n <=? 13))%nat || (n =? 32)%nat.

Fixpoint trimStart (s : string) : string :=
  match s with
  | EmptyString => EmptyString
  | String c s' => if is_space c then trimStart s' else s
  end.

Fixpoint trimEnd (s : string) : string :=
  match s with
  | EmptyString => EmptyString
  | String c s' =>
      match trimEnd s' with
      | EmptyString => if is_space c then EmptyString else String c EmptyString
      | r => String c r
      end
  end.

Definition trim (s : string) : string := trimEnd (trimStart s).

Definition upper_char (c : ascii) : ascii :=
  let n := nat_of_ascii c in
  if ((97 <=? n) && (n <=? 122))%nat then ascii_of_nat (n - 32) else c.

Fixpoint toUpperCase (s : string) : string :=
  match s with
  | EmptyString => EmptyString
  | String c s' => String (upper_char c) (toUpperCase s')
  end.

End Str.

(** ** The [tokens] table *)

Inductive Status : Type := Waiting | Allowed | Done.

Definition Status_eqb (a b : Status) : bool :=
  match a, b with
  | Waiting, Waiting | Allowed, Allowed | Done, Done => true
  | _, _ => false
  end.

(** One row of [tokens], with the columns of [ensureTokensTable]. *)
Record row : Type := mkRow {
  id : Z;
  token : string;
  name : string;
  age : Z;
  country : string;
  details : option string;
  status : Status;
  admitted_at : option Z;
  finished_at : option Z;
  created_at : option Z
}.

Definition table : Type := list row.

(** [SET status = 'done', finished_at = NOW()] *)
Definition set_done (now : Z) (r : row) : row :=
  mkRow (id r) (token r) (name r) (age r) (country r) (details r)
        Done (admitted_at r) (Some now) (created_at r).

(** [SET status = 'allowed', admitted_at = NOW()] *)
Definition set_allowed (now : Z) (r : row) : row :=
  mkRow (id r) (token r) (name r) (age r) (country r) (details r)
        Allowed (Some now) (finished_at r) (created_at r).

Definition is_allowed (r : row) : bool := Status_eqb (status r) Allowed.
Definition is_waiting (r : row) : bool := Status_eqb (status r) Waiting.
Definition not_done (r : row) : bool := negb (Status_eqb (status r) Done).
Definition has_token (t : string) (r : row) : bool := String.eqb (token r) t.
Definition has_id (i : Z) (r : row) : bool := id r =? i.

(** ** SQL fragments *)

Module Sql.

(** [UPDATE tokens SET ... WHERE p RETURNING *]: the rows that satisfy [p]
    are rewritten in place; the rewritten rows are returned. *)
Definition update (p : row -> bool) (f : row -> row) (t : table)
  : table * list row :=
  (map (fun r => if p r then f r else r) t, map f (filter p t)).

(** [ORDER BY]: insertion sort by a "comes no later than" test. *)
Fixpoint insert_by (le : row -> row -> bool) (x : row) (l : list row)
  : list row :=
  match l with
  | [] => [x]
  | y :: l' => if le x y then x :: l else y :: insert_by le x l'
  end.

Fixpoint order_by (le : row -> row -> bool) (l : list row) : list row :=
  match l with
  | [] => []
  | x :: l' => insert_by le x (order_by le l')
  end.

(** The largest [integer] (the type of an INT column and of the sequence
    of a SERIAL column) and the largest [bigint] (the type of a LIMIT). *)
Definition INT4_MAX : Z := 2147483647.
Definition INT8_MAX : Z := 9223372036854775807.

(** A value an INT column takes. *)
Definition int4 (z : Z) : bool := (- INT4_MAX - 1 <=? z) && (z <=? INT4_MAX).

(** [LIMIT n], for [n] a bigint: a negative limit is an error of the
    store. A limit that comes with a request is first checked to be a
    bigint, see [select_waiting]. *)
Definition limit {A : Type} (n : Z) (l : list A) : option (list A) :=
  if n <? 0 then None else Some (firstn (Z.to_nat n) l).

(** [ORDER BY admitted_at ASC NULLS FIRST, id ASC] *)
Definition by_admitted_at_id (a b : row) : bool :=
  match admitted_at a, admitted_at b with
  | None, None => id a <=? id b
  | None, Some _ => true
  | Some _, None => false
  | Some x, Some y => (x <? y) || ((x =? y) && (id a <=? id b))
  end.

(** [ORDER BY id ASC] *)
Definition by_id (a b : row) : bool := id a <=? id b.

(** [SELECT COUNT( * )::int FROM tokens WHERE status = 'allowed'] *)
Definition count_allowed (t : table) : Z :=
  Z.of_nat (List.length (filter is_allowed t)).

(** The serial sequence behind [tokens.id]. *)
Record sequence : Type := mkSeq { last_value : Z; is_called : bool }.

(** [setval(seq, v, called)] *)
Definition setval (v : Z) (called : bool) (_ : sequence) : sequence :=
  mkSeq v called.

(** [nextval(seq)]: the value handed out and the advanced sequence. The
    sequence of a SERIAL column stops at [INT4_MAX]: past it [nextval] is
    an error ([None]) and the sequence stays where it is. *)
Definition nextval (s : sequence) : option (Z * sequence) :=
  let v := if is_called s then last_value s + 1 else last_value s in
  if INT4_MAX <? v then None else Some (v, mkSeq v true).

End Sql.

(** The store: the table and the sequence that
    [pg_get_serial_sequence('tokens', 'id')] resolves to ([None] when the
    column has no sequence). *)
Record db : Type := mkDb {
  tokens : table;
  tokens_id_seq : option Sql.sequence
}.

(** State predicates of the schema: PRIMARY KEY (id), UNIQUE (token). *)
Definition pk_ok (t : table) : Prop := NoDup (map id t).
Definition token_unique (t : table) : Prop := NoDup (map token t).

(** ** Helpers of server.js *)

(** [formatToken(id)]: the template string [`T${id}`]. *)
Definition formatToken (i : Z) : string :=
  String "T" (NilZero.string_of_int (Z.to_int i)).

(** [token.trim().toUpperCase()] *)
Definition normalize (t : string) : string := Str.toUpperCase (Str.trim t).

Section Controller.

(** [MAX_ALLOWED = parseInt(process.env.MAX_ALLOWED || '20', 10)]: any
    integer the environment may give (a value that does not parse is
    outside the model); where it is the LIMIT of a query it is taken to
    be a bigint. *)
Variable MAX_ALLOWED : Z.

(** [getAllowedPatients(client)] *)
Definition getAllowedPatients (t : table) : option (list row) :=
  Sql.limit MAX_ALLOWED
    (Sql.order_by Sql.by_admitted_at_id (filter is_allowed t)).

(** The row the eviction statement picks: the sub-select
    [SELECT id FROM tokens WHERE status = 'allowed'
     ORDER BY admitted_at ASC NULLS FIRST, id ASC LIMIT 1]. *)
Definition oldest_allowed (t : table) : option row :=
  hd_error (Sql.order_by Sql.by_admitted_at_id (filter is_allowed t)).

(** [UPDATE tokens SET status = 'done', finished_at = NOW()
     WHERE id = (sub-select) RETURNING token] *)
Definition evict_oldest (now : Z) (t : table) : table * list string :=
  match oldest_allowed t with
  | None => (t, [])
  | Some o =>
      let '(t', rows) := Sql.update (has_id (id o)) (set_done now) t in
      (t', map token rows)
  end.

(** [makeRoomFor(client, slotsNeeded)]: one unfolding is one turn of the
    [while (slotsNeeded > 0)] loop; the list returned is [tokensFinished]
    in push order. *)
Fixpoint makeRoomFor (now : Z) (t : table) (slotsNeeded : nat)
  : table * list string :=
  match slotsNeeded with
  | O => (t, [])
  | S slotsLeft =>
      let allowedCount := Sql.count_allowed t in
      if allowedCount <? MAX_ALLOWED then (t, [])
      else
        match evict_oldest now t with
        | (t', []) => (t', [])
        | (t', finished :: _) =>
            let '(t'', tokensFinished) := makeRoomFor now t' slotsLeft in
            (t'', finished :: tokensFinished)
        end
  end.

(** What [setPatientAllowed] resolves to: [{ notFound: true }] or
    [{ patient, tokensFinished }] ([patient] is [rows[0]] of a query and
    may be undefined). *)
Inductive promotion : Type :=
| NotFound
| Promoted (patient : option row) (tokensFinished : list string).

(** [setPatientAllowed(client, token)] *)
Definition setPatientAllowed (now : Z) (t : table) (tok : string)
  : promotion * table :=
  let normalizedToken := normalize tok in
  match filter (has_token normalizedToken) t with
  | [] => (NotFound, t)
  | patient :: _ =>
      match status patient with
      | Done => (NotFound, t)
      | Allowed => (Promoted (Some patient) [], t)
      | Waiting =>
          let '(t1, tokensFinished) := makeRoomFor now t 1 in
          let '(t2, rows) :=
            Sql.update (has_id (id patient)) (set_allowed now) t1 in
          (Promoted (hd_error rows) tokensFinished, t2)
      end
  end.

(** [nextIdentity(client)]: [None] is the thrown
    [Error('Unable to resolve sequence for tokens.id')], or the error of
    [nextval] on a sequence that has reached its maximum. *)
Definition nextIdentity (d : db) : option Z * db :=
  match tokens_id_seq d with
  | None => (None, d)
  | Some sequenceName =>
      let initialCount := Z.of_nat (List.length (tokens d)) in
      let sq :=
        if initialCount =? 0 then
          let confirmCount := Z.of_nat (List.length (tokens d)) in
          if confirmCount =? 0 then Sql.setval 1 false sequenceName
          else sequenceName
        else sequenceName in
      match Sql.nextval sq with
      | Some (v, sq') => (Some v, mkDb (tokens d) (Some sq'))
      | None => (None, mkDb (tokens d) (Some sq))
      end
  end.


(** ** Request bodies *)

(** A JSON value as a handler reads it off [req.body]; [JNum] carries an
    integral number (fractions are outside the model) and [JObject] stands
    for any object or array. *)
Inductive jsval : Type :=
| JUndefined
| JNull
| JBool (b : bool)
| JNum (z : Z)
| JStr (s : string)
| JObject.

(** Truthiness, as [!v] and [v || w] test it. *)
Definition truthy (v : jsval) : bool :=
  match v with
  | JUndefined | JNull => false
  | JBool b => b
  | JNum z => negb (z =? 0)
  | JStr s => negb (String.eqb s EmptyString)
  | JObject => true
  end.

(** [v.trim()] on a truthy value: only a string has the method, on
    anything else the call throws a TypeError ([None]). *)
Definition js_trim (v : jsval) : option string :=
  match v with
  | JStr s => Some (Str.trim s)
  | _ => None
  end.

(** [Number.isInteger(v) ? v : ...] *)
Definition as_integer (v : jsval) : option Z :=
  match v with
  | JNum z => Some z
  | _ => None
  end.

(** Body of [/api/checkin]. [ageNumber] is [Number(age)] when that is a
    finite integer and [None] when it is NaN or infinite. *)
Record checkin_body : Type := mkCheckin {
  body_name : jsval;
  ageNumber : option Z;
  body_country : jsval;
  body_details : jsval
}.

(** Body of [/api/next]. *)
Record next_body : Type := mkNext { body_count : jsval; body_num : jsval }.

(** What a handler emits on the socket, in order. *)
Inductive event : Type :=
| NewPatient (patient : row)
| PatientFinished (finishedToken : string)
| AllowedUpdate (allowed : list row).

(** What a handler answers. *)
Inductive response : Type :=
| CheckinOk (tok : string) (patient : row)
| AdmitOk (patient : option row)
| RemoveOk
| NextOk (admitted : nat)
| NoWaiting
| BadRequest
| NotFound404
| ServerError.

(** [INSERT INTO tokens ... RETURNING *]: refused ([None]) when the
    primary key or the unique token is already taken, or when [id] or
    [age] is out of the range of its INT column. *)
Definition insert (r : row) (t : table) : option table :=
  if existsb (has_id (id r)) t || existsb (has_token (token r)) t
     || negb (Sql.int4 (id r)) || negb (Sql.int4 (age r))
  then None
  else Some (t ++ [r]).

(** [(details || '').trim() || null]; the outer [None] is a TypeError. *)
Definition details_param (v : jsval) : option (option string) :=
  match js_trim (if truthy v then v else JStr EmptyString) with
  | None => None
  | Some s => Some (if String.eqb s EmptyString then None else Some s)
  end.

(** ** Handlers *)

(** [app.post('/api/checkin')] *)
Definition post_checkin (now : Z) (b : checkin_body) (d : db)
  : response * list event * db :=
  if negb (truthy (body_name b)) || negb (truthy (body_country b))
  then (BadRequest, [], d)
  else
    match ageNumber b with
    | None => (BadRequest, [], d)
    | Some a =>
        if a <? 0 then (BadRequest, [], d)
        else
          match nextIdentity d with
          | (None, d1) => (ServerError, [], mkDb (tokens d) (tokens_id_seq d1))
          | (Some nextId, d1) =>
              let tok := formatToken nextId in
              match js_trim (body_name b), js_trim (body_country b),
                    details_param (body_details b) with
              | Some n, Some c, Some dt =>
                  let inserted :=
                    mkRow nextId tok n a c dt Waiting None None (Some now) in
                  match insert inserted (tokens d1) with
                  | Some t' =>
                      (CheckinOk tok inserted, [NewPatient inserted],
                       mkDb t' (tokens_id_seq d1))
                  | None =>
                      (ServerError, [], mkDb (tokens d) (tokens_id_seq d1))
                  end
              | _, _, _ =>
                  (ServerError, [], mkDb (tokens d) (tokens_id_seq d1))
              end
          end
    end.

(** [app.post('/api/admit/:token')] *)
Definition post_admit (now : Z) (tok : string) (t : table)
  : response * list event * table :=
  match setPatientAllowed now t tok with
  | (NotFound, _) => (NotFound404, [], t)
  | (Promoted patient tokensFinished, t1) =>
      match getAllowedPatients t1 with
      | None => (ServerError, [], t)
      | Some allowed =>
          (AdmitOk patient,
           map PatientFinished tokensFinished ++ [AllowedUpdate allowed], t1)
      end
  end.

(** [app.post('/api/remove/:token')] *)
Definition post_remove (now : Z) (tok : string) (t : table)
  : response * list event * table :=
  let normalizedToken := normalize tok in
  match filter (has_token normalizedToken) t with
  | [] => (NotFound404, [], t)
  | current :: _ =>
      let wasAllowed := Status_eqb (status current) Allowed in
      let '(t1, _) := Sql.update (has_token normalizedToken) (set_done now) t in
      match getAllowedPatients t1 with
      | None => (ServerError, [], t)
      | Some allowed =>
          (RemoveOk,
           if wasAllowed
           then [PatientFinished normalizedToken; AllowedUpdate allowed]
           else [],
           t1)
      end
  end.

(** The [for (const row of waitingRes.rows)] loop of [/api/next].
    A [{ notFound: true }] result has no [tokensFinished], and
    [finishedTokens.push(...undefined)] throws a TypeError: [None]. *)
Fixpoint promote_rows (now : Z) (rows : list string) (t : table)
    (promoted : list row) (finishedTokens : list string)
  : option (table * list row * list string) :=
  match rows with
  | [] => Some (t, promoted, finishedTokens)
  | rowToken :: rest =>
      match setPatientAllowed now t rowToken with
      | (NotFound, _) => None
      | (Promoted patient tokensFinished, t') =>
          promote_rows now rest t'
            (match patient with
             | Some p => promoted ++ [p]
             | None => promoted
             end)
            (finishedTokens ++ tokensFinished)
      end
  end.

(** [count] if it is an integer, else [num] if it is, else 5. *)
Definition requested (b : next_body) : Z :=
  match as_integer (body_count b) with
  | Some c => c
  | None =>
      match as_integer (body_num b) with
      | Some n => n
      | None => 5
      end
  end.

(** [SELECT token FROM tokens WHERE status = 'waiting'
     ORDER BY id ASC LIMIT $1]: the parameter is the number the request
    gave, and the store refuses one that is no bigint. *)
Definition select_waiting (n : Z) (t : table) : option (list row) :=
  if Sql.INT8_MAX <? n then None
  else Sql.limit n (Sql.order_by Sql.by_id (filter is_waiting t)).

(** [app.post('/api/next')] *)
Definition post_next (now : Z) (b : next_body) (t : table)
  : response * list event * table :=
  if requested b <=? 0 then (BadRequest, [], t)
  else
    match select_waiting (requested b) t with
    | None => (ServerError, [], t)
    | Some [] => (NoWaiting, [], t)
    | Some waitingRows =>
        match promote_rows now (map token waitingRows) t [] [] with
        | None => (ServerError, [], t)
        | Some (t1, promoted, finishedTokens) =>
            match getAllowedPatients t1 with
            | None => (ServerError, [], t)
            | Some allowed =>
                (NextOk (List.length promoted),
                 map PatientFinished finishedTokens ++ [AllowedUpdate allowed],
                 t1)
            end
        end
    end.

(** ** The service as a transition system *)

Inductive request : Type :=
| Checkin (b : checkin_body)
| Admit (tok : string)
| Remove (tok : string)
| Next (b : next_body).

Definition on_table (d : db) (r : response * list event * table)
  : response * list event * db :=
  let '(resp, evs, t) := r in (resp, evs, mkDb t (tokens_id_seq d)).

(** One request served at transaction time [now]. *)
Definition handle (now : Z) (q : request) (d : db)
  : response * list event * db :=
  match q with
  | Checkin b => post_checkin now b d
  | Admit tok => on_table d (post_admit now tok (tokens d))
  | Remove tok => on_table d (post_remove now tok (tokens d))
  | Next b => on_table d (post_next now b (tokens d))
  end.

(** The store after a sequence of requests, served one after the other. *)
Fixpoint run (qs : list (Z * request)) (d : db) : db :=
  match qs with
  | [] => d
  | (now, q) :: qs' => run qs' (snd (handle now q d))
  end.

End Controller.

(** ** Vocabulary of the statements *)

(** The rewriting an UPDATE by primary key performs on each row. *)
Definition rewrite_id (i : Z) (f : row -> row) (r : row) : row :=
  if has_id i r then f r else r.

(** 1 for an allowed row, 0 for any other. *)
Definition allowed_bit (r : row) : Z := if is_allowed r then 1 else 0.

(** The table once [victim] (if any) is evicted. *)
Definition evicted (now : Z) (victim : option row) (t : table) : table :=
  match victim with
  | Some o => map (rewrite_id (id o) (set_done now)) t
  | None => t
  end.

(** The token list the eviction statement returns. *)
Definition victim_token (victim : option row) : list string :=
  match victim with
  | Some o => [token o]
  | None => []
  end.

(** Decidable forms of the schema predicates. *)
Fixpoint nodupb {A : Type} (eqb : A -> A -> bool) (l : list A) : bool :=
  match l with
  | [] => true
  | x :: l' => negb (existsb (eqb x) l') && nodupb eqb l'
  end.

Definition pk_okb (t : table) : bool := nodupb Z.eqb (map id t).
Definition token_uniqueb (t : table) : bool := nodupb String.eqb (map token t).

(** Tokens are stored in the form look-ups normalise to. *)
Definition normalized (t : table) : Prop :=
  forall r, In r t -> normalize (token r) = token r.

Definition normalizedb (t : table) : bool :=
  forallb (fun r => String.eqb (normalize (token r)) (token r)) t.

(** The value the next [nextval] hands out. *)
Definition next_value (sq : Sql.sequence) : Z :=
  if Sql.is_called sq then Sql.last_value sq + 1 else Sql.last_value sq.

(** The sequence is ahead of the table: every stored identity is positive
    and below the value the sequence hands out next. *)
Definition seq_ahead (d : db) : Prop :=
  match tokens_id_seq d with
  | None => True
  | Some sq => forall r, In r (tokens d) -> 1 <= id r < next_value sq
  end.

Definition seq_aheadb (d : db) : bool :=
  match tokens_id_seq d with
  | None => true
  | Some sq =>
      forallb (fun r => (1 <=? id r) && (id r <? next_value sq)) (tokens d)
  end.


(** A store nobody has checked into yet, with a freshly created sequence. *)
Definition fresh_db : db := mkDb [] (Some (Sql.mkSeq 1 false)).

(** A check-in body whose [name] is the number 5. *)
Definition numeric_name : checkin_body :=
  mkCheckin (JNum 5) (Some 30) (JStr "FR") JUndefined.

(** A well-formed check-in body. *)
Definition good_body : checkin_body :=
  mkCheckin (JStr "Ada") (Some 30) (JStr "FR") JUndefined.

(** Characters that [trim] and [toUpperCase] leave alone. *)
Definition plain_char (c : ascii) : bool :=
  negb (Str.is_space c) && Ascii.eqb (Str.upper_char c) c.

Fixpoint all_plain (s : string) : bool :=
  match s with
  | EmptyString => true
  | String c s' => plain_char c && all_plain s'
  end.

(** A store as the handlers keep it: keys hold, tokens are stored in
    normalized form and the sequence is ahead of the table. *)
Definition wf_db (d : db) : Prop :=
  pk_ok (tokens d) /\ token_unique (tokens d) /\ normalized (tokens d) /\
  seq_ahead d.

Section Vocabulary.

Variable MAX_ALLOWED : Z.

(** Whom a call [makeRoomFor(client, 1)] evicts: nobody when there is
    room, else the oldest allowed row, if there is one. *)
Definition victim_of (t : table) : option row :=
  if Sql.count_allowed t <? MAX_ALLOWED then None else oldest_allowed t.

(** The table once [p] is promoted after making room. *)
Definition promoted_table (now : Z) (p : row) (t : table) : table :=
  map (rewrite_id (id p) (set_allowed now)) (evicted now (victim_of t) t).

(** The state predicate carried along every run: the primary key holds
    and at most [MAX_ALLOWED] rows are allowed. *)
Definition within_capacity (t : table) : Prop :=
  pk_ok t /\ Sql.count_allowed t <= MAX_ALLOWED.

End Vocabulary.

(** ** Sample stores *)

(** A row as [/api/checkin] creates it for identity [i], then moved to
    status [st] with admission time [adm]. *)
Definition sample (i : Z) (st : Status) (adm : option Z) : row :=
  mkRow i (formatToken i) "Ada" 30 "FR" None st adm None (Some 0).

(** Two allowed, one waiting. *)
Definition two_allowed : table :=
  [sample 1 Allowed (Some 10); sample 2 Allowed (Some 20);
   sample 3 Waiting None].

(** Four allowed and one waiting: over capacity when [MAX_ALLOWED] is 2. *)
Definition drifted : table :=
  [sample 1 Allowed (Some 10); sample 2 Allowed (Some 20);
   sample 3 Allowed (Some 30); sample 4 Allowed (Some 40);
   sample 5 Waiting None].

(** One allowed, one waiting. *)
Definition one_allowed : table :=
  [sample 1 Allowed (Some 10); sample 2 Waiting None].


(** Two waiting rows; the token of the first is stored in lower case. *)
Definition lower_case_token : table :=
  [mkRow 1 "t1" "Ada" 30 "FR" None Waiting None None (Some 0);
   sample 2 Waiting None].

(** The rows of [two_allowed] once row 3 has been removed. *)
Definition three_removed : table :=
  [sample 1 Allowed (Some 10); sample 2 Allowed (Some 20);
   mkRow 3 (formatToken 3) "Ada" 30 "FR" None Done None (Some 90) (Some 0)].

(** Three allowed and two waiting: over capacity when [MAX_ALLOWED] is 1. *)
Definition over_capacity : table :=
  [sample 1 Allowed (Some 10); sample 2 Allowed (Some 20);
   sample 3 Allowed (Some 30); sample 4 Waiting None;
   sample 5 Waiting None].

(** ** More of [String.prototype] *)

Module JsString.

Definition lower_char (c : ascii) : ascii :=
  let n := nat_of_ascii c in
  if ((65 <=? n) && (n <=? 90))%nat then ascii_of_nat (n + 32) else c.

Fixpoint toLowerCase (s : string) : string :=
  match s with
  | EmptyString => EmptyString
  | String c s' => String (lower_char c) (toLowerCase s')
  end.

(** [s.startsWith(p)] *)
Definition startsWith (p s : string) : bool := String.prefix p s.

(** [s.slice(n)], for [0 <= n]. *)
Fixpoint drop (n : nat) (s : string) : string :=
  match n, s with
  | O, _ => s
  | S n', EmptyString => EmptyString
  | S n', String _ s' => drop n' s'
  end.

Fixpoint take (n : nat) (s : string) : string :=
  match n, s with
  | O, _ => EmptyString
  | S n', EmptyString => EmptyString
  | S n', String c s' => String c (take n' s')
  end.

(** [s.slice(a, b)], for [0 <= a] and [0 <= b]. *)
Definition slice (a b : nat) (s : string) : string := take (b - a) (drop a s).

(** [s.indexOf(c)] for a one-character [c]; [None] is [-1]. *)
Fixpoint indexOf (c : ascii) (s : string) : option nat :=
  match s with
  | EmptyString => None
  | String a s' =>
      if Ascii.eqb a c then Some O else option_map S (indexOf c s')
  end.

End JsString.

(** ** Staff access (the protected routes of server.js) *)

(** [{ username, password }] *)
Record credentials : Type := mkCredentials {
  username : string;
  password : string
}.

(** What [requireStaff] does with a request: [next()], 503, or 401 with
    the realm of its [WWW-Authenticate] header. *)
Inductive gate : Type :=
| NextHandler
| Unavailable503
| Unauthorized401 (realm : string).

(** [process.env.X || ''] *)
Definition env_or_empty (v : option string) : string :=
  match v with
  | Some s => s
  | None => EmptyString
  end.

Section Staff.

(** The environment, and [Buffer.from(s, 'base64').toString('utf8')], a
    library function that returns a string for every input. *)
Variable env_STAFF_USER env_STAFF_PASS env_STAFF_REALM : option string.
Variable base64_utf8 : string -> string.

Definition STAFF_USER : string := Str.trim (env_or_empty env_STAFF_USER).
Definition STAFF_PASS : string := Str.trim (env_or_empty env_STAFF_PASS).

Definition STAFF_REALM : string :=
  if String.eqb (env_or_empty env_STAFF_REALM) EmptyString
  then "Clinic Staff Access"
  else env_or_empty env_STAFF_REALM.

(** [staffCredentialsConfigured()] *)
Definition staffCredentialsConfigured : bool :=
  negb (String.eqb STAFF_USER EmptyString)
  && negb (String.eqb STAFF_PASS EmptyString).

(** [warnIfStaffMissing()], on the flag [staffConfigWarned]: whether it
    warns, and the flag afterwards. *)
Definition warnIfStaffMissing (staffConfigWarned : bool) : bool * bool :=
  if negb staffCredentialsConfigured && negb staffConfigWarned
  then (true, true)
  else (false, staffConfigWarned).

(** [decodeBasicAuth(authHeader)]; the header is [None] when the request
    carries none, and the result [None] is [null]. *)
Definition decodeBasicAuth (authHeader : option string)
  : option credentials :=
  match authHeader with
  | None => None
  | Some header =>
      if String.eqb header EmptyString then None
      else
        let trimmed := Str.trim header in
        if negb (JsString.startsWith "basic " (JsString.toLowerCase trimmed))
        then None
        else
          let base64 := Str.trim (JsString.drop 6 trimmed) in
          if String.eqb base64 EmptyString then None
          else
            let decoded := base64_utf8 base64 in
            match JsString.indexOf ":" decoded with
            | None => Some (mkCredentials decoded EmptyString)
            | Some separatorIndex =>
                Some (mkCredentials
                        (JsString.slice 0 separatorIndex decoded)
                        (JsString.drop (separatorIndex + 1) decoded))
            end
  end.

(** [hasValidStaffAuth(authHeader)] *)
Definition hasValidStaffAuth (authHeader : option string) : bool :=
  if negb staffCredentialsConfigured then false
  else
    match decodeBasicAuth authHeader with
    | None => false
    | Some c =>
        String.eqb (username c) STAFF_USER
        && String.eqb (password c) STAFF_PASS
    end.

(** [requireStaff(req, res, next)]; the warning it may log first goes to
    the console and is left out, as the handlers' logs are. *)
Definition requireStaff (authorization : option string) : gate :=
  if negb staffCredentialsConfigured then Unavailable503
  else if hasValidStaffAuth authorization then NextHandler
  else Unauthorized401 STAFF_REALM.

End Staff.

(** ** The routes of the protected server *)

(** [app.get('/api/patients')]: the rows that are not done, by [id]. *)
Definition get_patients (t : table) : list row :=
  Sql.order_by Sql.by_id (filter not_done t).

Inductive route : Type :=
| ApiCheckin (b : checkin_body)
| ApiPatients
| ApiAllowed
| ApiAdmit (tok : string)
| ApiRemove (tok : string)
| ApiNext (b : next_body).

(** What the server sends back: the gate's refusal, a handler's answer, a
    list of rows, or the 500 of a failed listing. *)
Inductive reply : Type :=
| Denied (g : gate)
| Answer (r : response)
| Listing (rows : list row)
| ListingFailed.

Section Server.

Variable MAX_ALLOWED : Z.
Variable env_STAFF_USER env_STAFF_PASS env_STAFF_REALM : option string.
Variable base64_utf8 : string -> string.

Definition answered (r : response * list event * db)
  : reply * list event * db :=
  let '(resp, evs, d) := r in (Answer resp, evs, d).

(** The route once the gate, if it has one, let the request through. *)
Definition dispatch (now : Z) (q : route) (d : db)
  : reply * list event * db :=
  match q with
  | ApiCheckin b => answered (post_checkin now b d)
  | ApiPatients => (Listing (get_patients (tokens d)), [], d)
  | ApiAllowed =>
      match getAllowedPatients MAX_ALLOWED (tokens d) with
      | Some allowed => (Listing allowed, [], d)
      | None => (ListingFailed, [], d)
      end
  | ApiAdmit tok =>
      answered (on_table d (post_admit MAX_ALLOWED now tok (tokens d)))
  | ApiRemove tok =>
      answered (on_table d (post_remove MAX_ALLOWED now tok (tokens d)))
  | ApiNext b =>
      answered (on_table d (post_next MAX_ALLOWED now b (tokens d)))
  end.

(** An API request with its [Authorization] header, as the server
    that puts [requireStaff] before every API route but [/api/checkin]
    serves it. *)
Definition serve (now : Z) (authorization : option string) (q : route)
    (d : db) : reply * list event * db :=
  match q with
  | ApiCheckin _ => dispatch now q d
  | _ =>
      match requireStaff env_STAFF_USER env_STAFF_PASS env_STAFF_REALM
              base64_utf8 authorization with
      | NextHandler => dispatch now q d
      | g => (Denied g, [], d)
      end
  end.

End Server.

(** ** The command line of the load-test script *)

Module LoadTest.

(** What [options[key]] may read: a string or [true], which the loop
    assigns, or the property of that name of [Object.prototype], which
    the object literal [{}] inherits. *)
Inductive optval : Type :=
| OptString (s : string)
| OptTrue
| OptInherited (key : string).

(** The own properties of the [options] object, newest assignment
    first. *)
Definition options : Type := list (string * optval).

(** The property names of [Object.prototype]. *)
Definition Object_prototype : list string :=
  ["constructor"; "__defineGetter__"; "__defineSetter__";
   "hasOwnProperty"; "__lookupGetter__"; "__lookupSetter__";
   "isPrototypeOf"; "propertyIsEnumerable"; "toString"; "valueOf";
   "__proto__"; "toLocaleString"]%string.

Definition inherited (key : string) : bool :=
  existsb (String.eqb key) Object_prototype.

(** The own property [key], if there is one. *)
Fixpoint own (o : options) (key : string) : option optval :=
  match o with
  | [] => None
  | (k, v) :: o' => if String.eqb k key then Some v else own o' key
  end.

(** [options[key]]: the own property, else the inherited one; [None] is
    [undefined]. *)
Definition get (o : options) (key : string) : option optval :=
  match own o key with
  | Some v => Some v
  | None => if inherited key then Some (OptInherited key) else None
  end.

(** [options[key] = value] for a string or [true]: an own property is
    made or overwritten, except that [__proto__] is an accessor of
    [Object.prototype] whose setter ignores a value that is no object. *)
Definition set (key : string) (v : optval) (o : options) : options :=
  if String.eqb key "__proto__" then o else (key, v) :: o.

(** The [for] loop of [parseArgs()] over [process.argv.slice(2)]. *)
Fixpoint parseArgs_loop (args : list string) (o : options) : options :=
  match args with
  | [] => o
  | arg :: rest =>
      if negb (JsString.startsWith "--" arg) then parseArgs_loop rest o
      else
        match JsString.indexOf "=" arg with
        | Some eqIndex =>
            parseArgs_loop rest
              (set (JsString.slice 2 eqIndex arg)
                   (OptString (JsString.drop (eqIndex + 1) arg)) o)
        | None =>
            let key := JsString.drop 2 arg in
            match rest with
            | next :: rest' =>
                if negb (String.eqb next EmptyString)
                   && negb (JsString.startsWith "--" next)
                then parseArgs_loop rest' (set key (OptString next) o)
                else parseArgs_loop rest (set key OptTrue o)
            | [] => set key OptTrue o
            end
        end
  end.

(** [parseArgs()] *)
Definition parseArgs (argv : list string) : options := parseArgs_loop argv [].

Section Engine.

(** [String(Object.prototype[key])]: the text the engine gives for a
    built-in function or for [Object.prototype] itself. *)
Variable native_text : string -> string.

(** [String(v)] *)
Definition String_of (v : optval) : string :=
  match v with
  | OptString s => s
  | OptTrue => "true"
  | OptInherited key => native_text key
  end.

(** [getStringOption(options, key, envKey, fallback)]; [env k] is
    [String(process.env[k])], [None] when [process.env[k]] is
    undefined. *)
Definition getStringOption (o : options) (env : string -> option string)
    (key envKey : string) (fallback : option string) : option string :=
  match get o key with
  | Some v => Some (String_of v)
  | None =>
      match env envKey with
      | Some e => Some e
      | None => fallback
      end
  end.

(** [getBooleanOption(options, key, envKey, fallback)] *)
Definition getBooleanOption (o : options) (env : string -> option string)
    (key envKey : string) (fallback : bool) : bool :=
  match getStringOption o env key envKey None with
  | None => fallback
  | Some value =>
      existsb (String.eqb (JsString.toLowerCase value))
        ["1"%string; "true"%string; "yes"%string; "on"%string]
  end.

End Engine.

End LoadTest.

(** ** Vocabulary of the further statements *)

(** Rank of a status on the one-way line waiting, allowed, done. *)
Definition rank (s : Status) : Z :=
  match s with
  | Waiting => 0
  | Allowed => 1
  | Done => 2
  end.

(** How a handler may leave a row: the key, the token and what the
    patient entered stay; the status only moves forward; [admitted_at]
    is written on leaving [Waiting] only and [finished_at] on rows that
    end [Done] only. *)
Definition evolves (r r' : row) : Prop :=
  id r' = id r /\ token r' = token r /\ name r' = name r /\
  age r' = age r /\ country r' = country r /\ details r' = details r /\
  created_at r' = created_at r /\
  rank (status r) <= rank (status r') /\
  (status r <> Waiting -> admitted_at r' = admitted_at r) /\
  (status r' = Waiting -> admitted_at r' = admitted_at r) /\
  (status r' <> Done -> finished_at r' = finished_at r).

(** Every token is the one [formatToken] makes of the row's [id]. *)
Definition canonical (t : table) : Prop :=
  forall r, In r t -> token r = formatToken (id r).

Definition canonicalb (t : table) : bool :=
  forallb (fun r => String.eqb (token r) (formatToken (id r))) t.

(** The [patient-finished] tokens among a handler's events. *)
Fixpoint finished_tokens (evs : list event) : list string :=
  match evs with
  | [] => []
  | PatientFinished k :: evs' => k :: finished_tokens evs'
  | _ :: evs' => finished_tokens evs'
  end.

(** No character of the string is [c]. *)
Fixpoint free_of (c : ascii) (s : string) : bool :=
  match s with
  | EmptyString => true
  | String a s' => negb (Ascii.eqb a c) && free_of c s'
  end.

(** The string consists of white space only. *)
Fixpoint blank (s : string) : bool :=
  match s with
  | EmptyString => true
  | String c s' => Str.is_space c && blank s'
  end.

(** ** Sample headers and command lines *)

(** A stand-in for the decoder that hands its argument back. *)
Definition plain_decoder (s : string) : string := s.

Definition user_ada : option string := Some " ada "%string.
Definition user_with_colon : option string := Some "a:b"%string.
Definition pass_pw : option string := Some "p:w"%string.
Definition pass_blank : option string := Some "   "%string.
Definition header_ada : option string := Some "  bAsIc   ada:p:w "%string.
Definition header_colon : option string := Some "Basic a:b:p:w"%string.

(** ** Proof automation *)

(** Boolean tests of the model to arithmetic facts, and back. *)
Ltac bool_to_prop :=
  repeat match goal with
  | H : _ || _ = true |- _ => apply orb_true_iff in H
  | H : _ && _ = true |- _ => apply andb_true_iff in H
  | H : (_ <? _) = true |- _ => apply Z.ltb_lt in H
  | H : (_ <=? _) = true |- _ => apply Z.leb_le in H
  | H : (_ =? _) = true |- _ => apply Z.eqb_eq in H
  | H : (_ <? _) = false |- _ => apply Z.ltb_ge in H
  | H : (_ <=? _) = false |- _ => apply Z.leb_gt in H
  | H : (_ =? _) = false |- _ => apply Z.eqb_neq in H
  | H : _ /\ _ |- _ => destruct H
  | H : _ \/ _ |- _ => destruct H
  end.

Ltac prop_to_bool :=
  repeat first
    [ rewrite orb_true_iff | rewrite andb_true_iff | rewrite Z.ltb_lt
    | rewrite Z.leb_le | rewrite Z.eqb_eq ].

(** * Properties *)

(** ** Rows and updates *)

Lemma Status_eqb_eq (a b : Status) : Status_eqb a b = true <-> a = b.
Proof. destruct a, b; simpl; split; congruence. Qed.

Lemma is_allowed_true (r : row) : is_allowed r = true <-> status r = Allowed.
Proof. apply Status_eqb_eq. Qed.

Lemma is_waiting_true (r : row) : is_waiting r = true <-> status r = Waiting.
Proof. apply Status_eqb_eq. Qed.

Lemma has_id_true (i : Z) (r : row) : has_id i r = true <-> id r = i.
Proof. unfold has_id. apply Z.eqb_eq. Qed.

Lemma has_token_true (t : string) (r : row) :
  has_token t r = true <-> token r = t.
Proof. unfold has_token. apply String.eqb_eq. Qed.

Lemma update_by_id (i : Z) (f : row -> row) (t : table) :
  Sql.update (has_id i) f t
  = (map (rewrite_id i f) t, map f (filter (has_id i) t)).
Proof. reflexivity. Qed.

Lemma rewrite_id_other (i : Z) (f : row -> row) (t : table) :
  ~ In i (map id t) -> map (rewrite_id i f) t = t.
Proof.
  induction t as [|x t IH]; simpl; intros Hn; [reflexivity|].
  unfold rewrite_id at 1.
  destruct (has_id i x) eqn:E.
  - apply has_id_true in E. tauto.
  - f_equal. apply IH. tauto.
Qed.

Lemma filter_id_none (i : Z) (t : table) :
  ~ In i (map id t) -> filter (has_id i) t = [].
Proof.
  induction t as [|x t IH]; simpl; intros Hn; [reflexivity|].
  destruct (has_id i x) eqn:E.
  - apply has_id_true in E. tauto.
  - apply IH. tauto.
Qed.

Lemma filter_by_pk (t : table) (r : row) :
  pk_ok t -> In r t -> filter (has_id (id r)) t = [r].
Proof.
  unfold pk_ok. induction t as [|x t IH]; simpl; intros Hnd Hin; [tauto|].
  inversion Hnd as [|? ? Hx Hnd']; subst.
  destruct Hin as [->|Hin].
  - replace (has_id (id r) r) with true
      by (symmetry; now apply has_id_true).
    f_equal. now apply filter_id_none.
  - destruct (has_id (id r) x) eqn:E.
    + apply has_id_true in E. exfalso. apply Hx. rewrite E.
      now apply in_map.
    + now apply IH.
Qed.

Lemma filter_token_none (k : string) (t : table) :
  ~ In k (map token t) -> filter (has_token k) t = [].
Proof.
  induction t as [|x t IH]; simpl; intros Hn; [reflexivity|].
  destruct (has_token k x) eqn:E.
  - apply has_token_true in E. tauto.
  - apply IH. tauto.
Qed.

Lemma filter_by_token (t : table) (r : row) :
  token_unique t -> In r t -> filter (has_token (token r)) t = [r].
Proof.
  unfold token_unique.
  induction t as [|x t IH]; simpl; intros Hnd Hin; [tauto|].
  inversion Hnd as [|? ? Hx Hnd']; subst.
  destruct Hin as [->|Hin].
  - replace (has_token (token r) r) with true
      by (symmetry; now apply has_token_true).
    f_equal. now apply filter_token_none.
  - destruct (has_token (token r) x) eqn:E.
    + apply has_token_true in E. exfalso. apply Hx. rewrite E.
      now apply in_map.
    + now apply IH.
Qed.

Lemma map_id_rewrite (i : Z) (f : row -> row) (t : table) :
  (forall r, id (f r) = id r) -> map id (map (rewrite_id i f) t) = map id t.
Proof.
  intros Hf. rewrite map_map. apply map_ext. intros r.
  unfold rewrite_id. destruct (has_id i r); auto.
Qed.

Lemma map_token_rewrite (i : Z) (f : row -> row) (t : table) :
  (forall r, token (f r) = token r) ->
  map token (map (rewrite_id i f) t) = map token t.
Proof.
  intros Hf. rewrite map_map. apply map_ext. intros r.
  unfold rewrite_id. destruct (has_id i r); auto.
Qed.

(** ** Counting the allowed rows *)

Lemma count_allowed_cons (x : row) (t : table) :
  Sql.count_allowed (x :: t) = allowed_bit x + Sql.count_allowed t.
Proof.
  unfold Sql.count_allowed, allowed_bit. simpl.
  destruct (is_allowed x); simpl List.length; lia.
Qed.

Lemma count_allowed_nonneg (t : table) : 0 <= Sql.count_allowed t.
Proof. unfold Sql.count_allowed. lia. Qed.

Lemma count_allowed_app (t u : table) :
  Sql.count_allowed (t ++ u) = Sql.count_allowed t + Sql.count_allowed u.
Proof.
  unfold Sql.count_allowed. rewrite filter_app, length_app. lia.
Qed.

Lemma count_rewrite_pk (t : table) (r : row) (f : row -> row) :
  pk_ok t -> In r t ->
  Sql.count_allowed (map (rewrite_id (id r) f) t)
  = Sql.count_allowed t - allowed_bit r + allowed_bit (f r).
Proof.
  unfold pk_ok. induction t as [|x t IH]; simpl; intros Hnd Hin; [tauto|].
  inversion Hnd as [|? ? Hx Hnd']; subst.
  rewrite !count_allowed_cons.
  destruct Hin as [->|Hin].
  - rewrite rewrite_id_other by assumption.
    unfold rewrite_id.
    replace (has_id (id r) r) with true
      by (symmetry; now apply has_id_true).
    lia.
  - rewrite IH by assumption.
    unfold rewrite_id at 1.
    destruct (has_id (id r) x) eqn:E.
    + apply has_id_true in E. exfalso. apply Hx. rewrite E.
      now apply in_map.
    + lia.
Qed.

Lemma count_rewrite_absent (t : table) (i : Z) (f : row -> row) :
  ~ In i (map id t) ->
  Sql.count_allowed (map (rewrite_id i f) t) = Sql.count_allowed t.
Proof. intros H. now rewrite rewrite_id_other. Qed.

Lemma count_zero_no_allowed (t : table) :
  Sql.count_allowed t = 0 <-> filter is_allowed t = [].
Proof.
  unfold Sql.count_allowed. split.
  - intros H. destruct (filter is_allowed t); [reflexivity|].
    simpl List.length in H. lia.
  - intros ->. reflexivity.
Qed.

(** ** ORDER BY is a rearrangement *)

Lemma insert_by_perm le x l : Permutation (Sql.insert_by le x l) (x :: l).
Proof.
  induction l as [|y l IH]; simpl; [apply Permutation_refl|].
  destruct (le x y); [apply Permutation_refl|].
  eapply Permutation_trans; [apply perm_skip, IH|apply perm_swap].
Qed.

Lemma order_by_perm le l : Permutation (Sql.order_by le l) l.
Proof.
  induction l as [|x l IH]; simpl; [apply perm_nil|].
  eapply Permutation_trans; [apply insert_by_perm|now apply perm_skip].
Qed.

Lemma order_by_nil_inv le l : Sql.order_by le l = [] -> l = [].
Proof.
  intros H. apply Permutation_nil. rewrite <- H.
  apply order_by_perm.
Qed.

Lemma oldest_allowed_in (t : table) (o : row) :
  oldest_allowed t = Some o -> In o t /\ status o = Allowed.
Proof.
  unfold oldest_allowed. intros H.
  assert (Hin : In o (filter is_allowed t)).
  { apply (Permutation_in o (order_by_perm Sql.by_admitted_at_id _)).
    destruct (Sql.order_by _ _) as [|y l]; simpl in H; [discriminate|].
    injection H as ->. now left. }
  apply filter_In in Hin. destruct Hin as [Hin Ha].
  split; [assumption|now apply is_allowed_true].
Qed.

Lemma oldest_allowed_none (t : table) :
  oldest_allowed t = None <-> Sql.count_allowed t = 0.
Proof.
  unfold oldest_allowed. rewrite count_zero_no_allowed. split.
  - intros H. apply (order_by_nil_inv Sql.by_admitted_at_id).
    destruct (Sql.order_by _ _); [reflexivity|discriminate].
  - intros ->. reflexivity.
Qed.

(** ** Eviction and promotion, statement by statement *)

Lemma id_set_done now r : id (set_done now r) = id r.
Proof. reflexivity. Qed.

Lemma id_set_allowed now r : id (set_allowed now r) = id r.
Proof. reflexivity. Qed.

Lemma pk_rewrite (i : Z) (f : row -> row) (t : table) :
  (forall r, id (f r) = id r) -> pk_ok t -> pk_ok (map (rewrite_id i f) t).
Proof. unfold pk_ok. intros Hf H. now rewrite map_id_rewrite. Qed.

Lemma token_unique_rewrite (i : Z) (f : row -> row) (t : table) :
  (forall r, token (f r) = token r) ->
  token_unique t -> token_unique (map (rewrite_id i f) t).
Proof. unfold token_unique. intros Hf H. now rewrite map_token_rewrite. Qed.

Lemma evict_oldest_spec (now : Z) (t : table) :
  pk_ok t ->
  evict_oldest now t
  = (evicted now (oldest_allowed t) t, victim_token (oldest_allowed t)).
Proof.
  intros Hpk. unfold evict_oldest.
  destruct (oldest_allowed t) as [o|] eqn:Ho; [|reflexivity].
  apply oldest_allowed_in in Ho. destruct Ho as [Hin _].
  rewrite update_by_id, (filter_by_pk t o Hpk Hin). reflexivity.
Qed.

Lemma pk_evicted now victim t : pk_ok t -> pk_ok (evicted now victim t).
Proof.
  destruct victim; simpl; [|auto]. apply pk_rewrite. apply id_set_done.
Qed.

Lemma count_evicted (now : Z) (t : table) (o : row) :
  pk_ok t -> oldest_allowed t = Some o ->
  Sql.count_allowed (evicted now (Some o) t) = Sql.count_allowed t - 1.
Proof.
  intros Hpk Ho. apply oldest_allowed_in in Ho. destruct Ho as [Hin Hst].
  simpl. rewrite count_rewrite_pk by assumption.
  unfold allowed_bit.
  replace (is_allowed o) with true by (symmetry; now apply is_allowed_true).
  unfold is_allowed. simpl. lia.
Qed.

Section MakeRoom.

Variable MAX_ALLOWED : Z.

Lemma makeRoomFor_1 (now : Z) (t : table) :
  pk_ok t ->
  makeRoomFor MAX_ALLOWED now t 1
  = (evicted now (victim_of MAX_ALLOWED t) t,
     victim_token (victim_of MAX_ALLOWED t)).
Proof.
  intros Hpk. unfold victim_of. simpl.
  destruct (Sql.count_allowed t <? MAX_ALLOWED); [reflexivity|].
  rewrite evict_oldest_spec by assumption.
  destruct (oldest_allowed t); reflexivity.
Qed.

Lemma count_after_victim (now : Z) (t : table) :
  pk_ok t ->
  Sql.count_allowed (evicted now (victim_of MAX_ALLOWED t) t)
  = if (MAX_ALLOWED <=? Sql.count_allowed t) && (1 <=? Sql.count_allowed t)
    then Sql.count_allowed t - 1
    else Sql.count_allowed t.
Proof.
  intros Hpk. unfold victim_of.
  destruct (Sql.count_allowed t <? MAX_ALLOWED) eqn:E.
  - apply Z.ltb_lt in E.
    replace (MAX_ALLOWED <=? Sql.count_allowed t) with false
      by (symmetry; apply Z.leb_gt; lia).
    reflexivity.
  - apply Z.ltb_ge in E.
    replace (MAX_ALLOWED <=? Sql.count_allowed t) with true
      by (symmetry; apply Z.leb_le; lia).
    destruct (oldest_allowed t) as [o|] eqn:Ho.
    + rewrite (count_evicted now t o Hpk Ho).
      pose proof (count_allowed_nonneg (evicted now (Some o) t)) as Hnn.
      rewrite (count_evicted now t o Hpk Ho) in Hnn.
      replace (1 <=? Sql.count_allowed t) with true
        by (symmetry; apply Z.leb_le; lia).
      reflexivity.
    + apply oldest_allowed_none in Ho. simpl evicted. rewrite Ho.
      reflexivity.
Qed.

Lemma in_evicted_unchanged (now : Z) (victim : option row) (t : table)
    (p : row) :
  In p t -> status p <> Allowed ->
  (forall o, victim = Some o -> In o t /\ status o = Allowed) ->
  pk_ok t -> In p (evicted now victim t).
Proof.
  intros Hin Hst Hv Hpk. destruct victim as [o|]; simpl; [|assumption].
  destruct (Hv o eq_refl) as [Ho Hso].
  replace p with (rewrite_id (id o) (set_done now) p);
    [now apply in_map|].
  unfold rewrite_id. destruct (has_id (id o) p) eqn:E; [|reflexivity].
  apply has_id_true in E.
  pose proof (filter_by_pk t p Hpk Hin) as Hf.
  assert (Hino : In o (filter (has_id (id p)) t)).
  { apply filter_In. split; [assumption|]. now apply has_id_true. }
  rewrite Hf in Hino. destruct Hino as [->|[]]. congruence.
Qed.

Lemma victim_of_in (t : table) (o : row) :
  victim_of MAX_ALLOWED t = Some o -> In o t /\ status o = Allowed.
Proof.
  unfold victim_of. destruct (_ <? _); [discriminate|].
  apply oldest_allowed_in.
Qed.

Lemma filter_head_in {A} (p : A -> bool) (l : list A) (x : A) (rest : list A) :
  filter p l = x :: rest -> In x l /\ p x = true.
Proof.
  intros H. apply filter_In. rewrite H. now left.
Qed.

(** [setPatientAllowed] on a token whose row is waiting. *)
Lemma setPatientAllowed_waiting (now : Z) (t : table) (tok : string)
    (p : row) (rest : list row) :
  pk_ok t ->
  filter (has_token (normalize tok)) t = p :: rest ->
  status p = Waiting ->
  setPatientAllowed MAX_ALLOWED now t tok
  = (Promoted (Some (set_allowed now p))
       (victim_token (victim_of MAX_ALLOWED t)),
     promoted_table MAX_ALLOWED now p t).
Proof.
  intros Hpk Hf Hst. unfold setPatientAllowed. rewrite Hf, Hst.
  rewrite makeRoomFor_1 by assumption.
  rewrite update_by_id.
  destruct (filter_head_in _ _ _ _ Hf) as [Hin _].
  assert (Hin' : In p (evicted now (victim_of MAX_ALLOWED t) t)).
  { apply in_evicted_unchanged; try assumption.
    - congruence.
    - apply victim_of_in. }
  rewrite (filter_by_pk _ p (pk_evicted now _ t Hpk) Hin').
  reflexivity.
Qed.

Lemma pk_promoted_table now p t :
  pk_ok t -> pk_ok (promoted_table MAX_ALLOWED now p t).
Proof.
  intros H. unfold promoted_table.
  apply pk_rewrite; [apply id_set_allowed|]. now apply pk_evicted.
Qed.

End MakeRoom.

(** ** The eviction order *)

Lemma by_admitted_at_id_total (a b : row) :
  Sql.by_admitted_at_id a b = true \/ Sql.by_admitted_at_id b a = true.
Proof.
  unfold Sql.by_admitted_at_id.
  destruct (admitted_at a), (admitted_at b); prop_to_bool; lia.
Qed.

Lemma by_admitted_at_id_trans (a b c : row) :
  Sql.by_admitted_at_id a b = true -> Sql.by_admitted_at_id b c = true ->
  Sql.by_admitted_at_id a c = true.
Proof.
  unfold Sql.by_admitted_at_id.
  destruct (admitted_at a), (admitted_at b), (admitted_at c);
    intros H1 H2; try discriminate; try reflexivity;
    bool_to_prop; prop_to_bool; lia.
Qed.

Section HeadOfOrderBy.

Variable le : row -> row -> bool.
Hypothesis le_total : forall a b, le a b = true \/ le b a = true.
Hypothesis le_trans :
  forall a b c, le a b = true -> le b c = true -> le a c = true.

Lemma insert_by_head (x h : row) (l : list row) :
  (forall h0, hd_error l = Some h0 -> forall z, In z l -> le h0 z = true) ->
  hd_error (Sql.insert_by le x l) = Some h ->
  forall z, In z (x :: l) -> le h z = true.
Proof.
  intros Hl Hh z Hz. destruct l as [|y l]; simpl in Hh.
  - injection Hh as <-. destruct Hz as [<-|[]].
    destruct (le_total x x); assumption.
  - specialize (Hl y eq_refl).
    destruct (le x y) eqn:E; simpl in Hh; injection Hh as <-.
    + destruct Hz as [<-|Hz].
      * destruct (le_total x x); assumption.
      * apply le_trans with y; auto.
    + destruct Hz as [<-|Hz]; [|auto].
      destruct (le_total x y); congruence.
Qed.

Lemma order_by_head (l : list row) (h : row) :
  hd_error (Sql.order_by le l) = Some h ->
  forall z, In z l -> le h z = true.
Proof.
  revert h. induction l as [|x l IH]; simpl; intros h Hh z Hz; [tauto|].
  apply (insert_by_head x h (Sql.order_by le l)); try assumption.
  - intros h0 Hh0 z0 Hz0. apply IH; [assumption|].
    apply (Permutation_in z0 (order_by_perm le l) Hz0).
  - destruct Hz as [<-|Hz]; [now left|right].
    apply (Permutation_in z (Permutation_sym (order_by_perm le l)) Hz).
Qed.

End HeadOfOrderBy.

(** The row the eviction statement picks comes first in the eviction
    order among the allowed rows. *)
Lemma oldest_allowed_least (t : table) (o : row) :
  oldest_allowed t = Some o ->
  forall r, In r t -> status r = Allowed ->
  Sql.by_admitted_at_id o r = true.
Proof.
  unfold oldest_allowed. intros Ho r Hin Hst.
  apply (order_by_head Sql.by_admitted_at_id by_admitted_at_id_total
           by_admitted_at_id_trans _ o Ho).
  apply filter_In. split; [assumption|now apply is_allowed_true].
Qed.

(** With a primary key the eviction order is strict: two allowed rows
    never tie, so the oldest allowed row is unique. *)
Lemma by_admitted_at_id_antisym (t : table) (a b : row) :
  pk_ok t -> In a t -> In b t ->
  Sql.by_admitted_at_id a b = true -> Sql.by_admitted_at_id b a = true ->
  a = b.
Proof.
  intros Hpk Ha Hb H1 H2.
  assert (Hid : id a = id b).
  { unfold Sql.by_admitted_at_id in *.
    destruct (admitted_at a), (admitted_at b); try discriminate;
      bool_to_prop; lia. }
  pose proof (filter_by_pk t b Hpk Hb) as Hf.
  assert (Hin : In a (filter (has_id (id b)) t)).
  { apply filter_In. split; [assumption|now apply has_id_true]. }
  rewrite Hf in Hin. destruct Hin as [->|[]]. reflexivity.
Qed.

(** ** The decidable schema predicates are sound *)

Lemma nodupb_sound {A} (eqb : A -> A -> bool) (l : list A) :
  (forall x y, eqb x y = true <-> x = y) ->
  nodupb eqb l = true -> NoDup l.
Proof.
  intros Heq. induction l as [|x l IH]; simpl; intros H; [constructor|].
  apply andb_true_iff in H. destruct H as [Hx Hl].
  constructor; [|auto].
  intros Hin. apply negb_true_iff in Hx.
  assert (existsb (eqb x) l = true); [|congruence].
  apply existsb_exists. exists x. split; [assumption|now apply Heq].
Qed.

Lemma pk_okb_sound (t : table) : pk_okb t = true -> pk_ok t.
Proof. apply nodupb_sound. intros x y. apply Z.eqb_eq. Qed.

Lemma token_uniqueb_sound (t : table) :
  token_uniqueb t = true -> token_unique t.
Proof. apply nodupb_sound. intros x y. apply String.eqb_eq. Qed.

Lemma normalizedb_sound (t : table) : normalizedb t = true -> normalized t.
Proof.
  unfold normalizedb, normalized. intros H r Hin.
  rewrite forallb_forall in H. apply String.eqb_eq. now apply H.
Qed.

(** ** Making room *)

Section MakeRoomSpec.

Variable MAX_ALLOWED : Z.

(** C2 (amended): the make-room step of a promotion,
    [makeRoomFor(client, 1)], evicts at most one row.  It evicts nobody
    when the allowed count is below [MAX_ALLOWED] or when no row is
    allowed; otherwise it evicts exactly the oldest allowed row (first by
    [admitted_at] ascending with nulls first, then by [id]), returns its
    token and lowers the allowed count by one.  So the count afterwards is
    below [MAX_ALLOWED] or zero when it was at most [MAX_ALLOWED] before,
    and [c - 1] in a drifted state with [c > MAX_ALLOWED], [c >= 1]
    allowed rows. *)
Theorem makeRoomFor_evicts_at_most_one (now : Z) (t : table) :
  pk_ok t ->
  exists t' tokensFinished,
    makeRoomFor MAX_ALLOWED now t 1 = (t', tokensFinished) /\
    (Sql.count_allowed t < MAX_ALLOWED \/ Sql.count_allowed t = 0 ->
     t' = t /\ tokensFinished = []) /\
    (MAX_ALLOWED <= Sql.count_allowed t -> 0 < Sql.count_allowed t ->
     exists o,
       In o t /\ status o = Allowed /\
       (forall r, In r t -> status r = Allowed ->
                  Sql.by_admitted_at_id o r = true) /\
       t' = map (rewrite_id (id o) (set_done now)) t /\
       tokensFinished = [token o] /\
       Sql.count_allowed t' = Sql.count_allowed t - 1) /\
    (Sql.count_allowed t <= MAX_ALLOWED ->
     Sql.count_allowed t' < MAX_ALLOWED \/ Sql.count_allowed t' = 0).
Proof.
  intros Hpk.
  exists (evicted now (victim_of MAX_ALLOWED t) t),
         (victim_token (victim_of MAX_ALLOWED t)).
  split; [now apply makeRoomFor_1|].
  pose proof (count_after_victim MAX_ALLOWED now t Hpk) as Hc.
  pose proof (count_allowed_nonneg t) as Hnn.
  split; [|split].
  - intros Hroom. unfold victim_of.
    destruct (Sql.count_allowed t <? MAX_ALLOWED) eqn:E; [now split|].
    apply Z.ltb_ge in E.
    assert (H0 : Sql.count_allowed t = 0) by lia.
    apply oldest_allowed_none in H0. rewrite H0. now split.
  - intros Hfull Hpos. unfold victim_of in *.
    replace (Sql.count_allowed t <? MAX_ALLOWED) with false in *
      by (symmetry; apply Z.ltb_ge; lia).
    destruct (oldest_allowed t) as [o|] eqn:Ho.
    + exists o. destruct (oldest_allowed_in t o Ho) as [Hin Hst].
      repeat split; try assumption.
      * now apply oldest_allowed_least.
      * now apply count_evicted.
    + apply oldest_allowed_none in Ho. lia.
  - intros Hle. rewrite Hc.
    destruct (MAX_ALLOWED <=? Sql.count_allowed t) eqn:E1;
      destruct (1 <=? Sql.count_allowed t) eqn:E2; simpl;
      bool_to_prop; lia.
Qed.

End MakeRoomSpec.

Lemma makeRoomFor_evicts_at_most_one_witness :
  pk_ok two_allowed /\
  exists t' tokensFinished,
    makeRoomFor 2 100 two_allowed 1 = (t', tokensFinished) /\
    tokensFinished = [formatToken 1] /\
    Sql.count_allowed t' = 1.
Proof.
  assert (Hpk : pk_ok two_allowed) by (apply pk_okb_sound; reflexivity).
  split; [exact Hpk|].
  destruct (makeRoomFor_evicts_at_most_one 2 100 two_allowed Hpk)
    as (t' & fin & Heq & _ & Hevict & _).
  exists t', fin. split; [exact Heq|].
  vm_compute in Heq. injection Heq as <- <-.
  split; reflexivity.
Defined.

(** C2, as stated, fails on a drifted state: with [MAX_ALLOWED = 2] and
    four allowed rows the make-room step of a promotion evicts one row
    only, and three rows stay allowed. *)
Lemma makeRoomFor_leaves_drift :
  pk_ok drifted /\
  Sql.count_allowed drifted = 4 /\
  snd (makeRoomFor 2 100 drifted 1) = [formatToken 1] /\
  ~ (Sql.count_allowed (fst (makeRoomFor 2 100 drifted 1)) < 2 \/
     Sql.count_allowed (fst (makeRoomFor 2 100 drifted 1)) = 0).
Proof.
  split; [apply pk_okb_sound; reflexivity|].
  split; [reflexivity|]. split; [reflexivity|].
  vm_compute. intros [H|H]; discriminate.
Qed.

(** ** Looking a token up *)




Section Handlers.

Variable MAX_ALLOWED : Z.

(** ** Removal *)


(** ** Promotion of a single token *)



(** ** Batch size *)

(** C9: a batch size [requested <= 0] is answered 400 before the
    transaction is opened: nothing is emitted and the table is
    untouched. *)
Theorem next_rejects_non_positive (now : Z) (b : next_body) (t : table) :
  requested b <= 0 ->
  post_next MAX_ALLOWED now b t = (BadRequest, [], t).
Proof.
  intros H. unfold post_next.
  replace (requested b <=? 0) with true by (symmetry; now apply Z.leb_le).
  reflexivity.
Qed.

End Handlers.





Lemma next_rejects_non_positive_witness :
  post_next 2 100 (mkNext (JNum 0) JUndefined) two_allowed
  = (BadRequest, [], two_allowed) /\
  post_next 2 100 (mkNext JUndefined (JNum (-1))) two_allowed
  = (BadRequest, [], two_allowed).
Proof.
  split.
  - apply (next_rejects_non_positive 2 100 (mkNext (JNum 0) JUndefined)).
    vm_compute. discriminate.
  - apply (next_rejects_non_positive 2 100 (mkNext JUndefined (JNum (-1)))).
    vm_compute. discriminate.
Defined.

(** ** Snapshot and eviction agree *)

Lemma same_id_same_row (t : table) (a b : row) :
  pk_ok t -> In a t -> In b t -> id a = id b -> a = b.
Proof.
  intros Hpk Ha Hb Hid.
  pose proof (filter_by_pk t b Hpk Hb) as Hf.
  assert (Hin : In a (filter (has_id (id b)) t)).
  { apply filter_In. split; [assumption|now apply has_id_true]. }
  rewrite Hf in Hin. destruct Hin as [->|[]]. reflexivity.
Qed.

Lemma rewrite_id_hit (i : Z) (f : row -> row) (r : row) :
  id r = i -> rewrite_id i f r = f r.
Proof.
  intros H. unfold rewrite_id.
  replace (has_id i r) with true by (symmetry; now apply has_id_true).
  reflexivity.
Qed.

Lemma rewrite_id_miss (i : Z) (f : row -> row) (r : row) :
  id r <> i -> rewrite_id i f r = r.
Proof.
  intros H. unfold rewrite_id.
  destruct (has_id i r) eqn:E; [|reflexivity].
  apply has_id_true in E. contradiction.
Qed.

Section Snapshot.

Variable MAX_ALLOWED : Z.

Lemma snapshot_head_oldest (t : table) (first : row) (rest : list row) :
  getAllowedPatients MAX_ALLOWED t = Some (first :: rest) ->
  oldest_allowed t = Some first.
Proof.
  unfold getAllowedPatients, Sql.limit, oldest_allowed.
  destruct (MAX_ALLOWED <? 0); [discriminate|].
  destruct (Z.to_nat MAX_ALLOWED) as [|k]; [discriminate|].
  destruct (Sql.order_by Sql.by_admitted_at_id (filter is_allowed t))
    as [|h sorted]; [discriminate|].
  simpl. now intros [= -> _].
Qed.

(** C6 (amended): provided [MAX_ALLOWED >= 1] (and a bigint), in every
    state with unique ids and at least one allowed row,
    [getAllowedPatients] returns a first row and it is the row the
    eviction statement picks: it is allowed, no
    allowed row comes before it in the eviction order, and evicting
    returns its token, leaves the row of that [id] with status [Done] and
    [finished_at] stamped, keeps every other row as it was and lowers the
    allowed count by one.  A promotion that needs room (allowed count at
    least [MAX_ALLOWED]) reports that token as the one it finished: in
    the table it leaves, the row of that [id] is [Done], and the promoted
    row is [Allowed] with [admitted_at] stamped. *)
Theorem snapshot_head_is_next_evicted (now : Z) (t : table) :
  1 <= MAX_ALLOWED <= Sql.INT8_MAX ->
  pk_ok t ->
  (exists r, In r t /\ status r = Allowed) ->
  exists first rest,
    getAllowedPatients MAX_ALLOWED t = Some (first :: rest) /\
    In first t /\ status first = Allowed /\
    (forall r, In r t -> status r = Allowed ->
               Sql.by_admitted_at_id first r = true) /\
    evict_oldest now t
    = (map (rewrite_id (id first) (set_done now)) t, [token first]) /\
    (exists gone,
       In gone (fst (evict_oldest now t)) /\
       id gone = id first /\ token gone = token first /\
       status gone = Done /\ finished_at gone = Some now) /\
    (forall r, In r t -> id r <> id first ->
               In r (fst (evict_oldest now t))) /\
    Sql.count_allowed (fst (evict_oldest now t))
    = Sql.count_allowed t - 1 /\
    (forall tok p others,
       MAX_ALLOWED <= Sql.count_allowed t ->
       filter (has_token (normalize tok)) t = p :: others ->
       status p = Waiting ->
       exists t' promoted gone,
         setPatientAllowed MAX_ALLOWED now t tok
         = (Promoted (Some promoted) [token first], t') /\
         In promoted t' /\ id promoted = id p /\
         status promoted = Allowed /\ admitted_at promoted = Some now /\
         In gone t' /\ id gone = id first /\ token gone = token first /\
         status gone = Done /\ finished_at gone = Some now).
Proof.
  intros Hmax Hpk (r & Hr & Hst).
  destruct (Sql.order_by Sql.by_admitted_at_id (filter is_allowed t))
    as [|h sorted] eqn:Hs.
  { apply order_by_nil_inv in Hs.
    assert (H : In r (filter is_allowed t)).
    { apply filter_In. split; [assumption|now apply is_allowed_true]. }
    rewrite Hs in H. destruct H. }
  assert (Hsnap : getAllowedPatients MAX_ALLOWED t
                  = Some (h :: firstn (Z.to_nat MAX_ALLOWED - 1) sorted)).
  { unfold getAllowedPatients, Sql.limit. rewrite Hs.
    replace (MAX_ALLOWED <? 0) with false
      by (symmetry; apply Z.ltb_ge; lia).
    destruct (Z.to_nat MAX_ALLOWED) as [|k] eqn:Hk; [lia|].
    simpl. now rewrite Nat.sub_0_r. }
  exists h, (firstn (Z.to_nat MAX_ALLOWED - 1) sorted).
  split; [exact Hsnap|].
  pose proof (snapshot_head_oldest t h _ Hsnap) as Ho.
  destruct (oldest_allowed_in t h Ho) as [Hin Hfst].
  split; [assumption|]. split; [assumption|].
  split; [now apply oldest_allowed_least|].
  assert (Hev : evict_oldest now t
                = (map (rewrite_id (id h) (set_done now)) t, [token h])).
  { rewrite evict_oldest_spec by assumption. now rewrite Ho. }
  split; [exact Hev|]. rewrite Hev. simpl fst.
  split; [|split; [|split]].
  - exists (set_done now h).
    split; [|repeat split].
    replace (set_done now h) with (rewrite_id (id h) (set_done now) h)
      by (now apply rewrite_id_hit).
    now apply in_map.
  - intros x Hx Hne.
    replace x with (rewrite_id (id h) (set_done now) x) at 1
      by (now apply rewrite_id_miss).
    now apply in_map.
  - exact (count_evicted now t h Hpk Ho).
  - intros tok p others Hfull Hf Hw.
    exists (promoted_table MAX_ALLOWED now p t), (set_allowed now p),
      (set_done now h).
    rewrite (setPatientAllowed_waiting MAX_ALLOWED now t tok p others)
      by assumption.
    assert (Hv : victim_of MAX_ALLOWED t = Some h).
    { unfold victim_of.
      replace (Sql.count_allowed t <? MAX_ALLOWED) with false
        by (symmetry; apply Z.ltb_ge; lia).
      assumption. }
    unfold promoted_table. rewrite Hv. split; [reflexivity|]. simpl.
    destruct (filter_head_in _ _ _ _ Hf) as [Hp _].
    assert (Hne : id h <> id p).
    { intros Hid.
      rewrite (same_id_same_row t h p) in Hfst by assumption.
      congruence. }
    split; [|repeat split].
    + replace (set_allowed now p)
        with (rewrite_id (id p) (set_allowed now)
                (rewrite_id (id h) (set_done now) p)).
      * now apply in_map, in_map.
      * rewrite (rewrite_id_miss (id h)) by congruence.
        now apply rewrite_id_hit.
    + replace (set_done now h)
        with (rewrite_id (id p) (set_allowed now)
                (rewrite_id (id h) (set_done now) h)).
      * now apply in_map, in_map.
      * rewrite (rewrite_id_hit (id h)) by reflexivity.
        now apply rewrite_id_miss.
Qed.

End Snapshot.

Lemma snapshot_head_is_next_evicted_witness :
  pk_ok two_allowed /\
  exists first rest,
    getAllowedPatients 2 two_allowed = Some (first :: rest) /\
    first = sample 1 Allowed (Some 10) /\
    exists t' promoted,
      setPatientAllowed 2 100 two_allowed "T3"
      = (Promoted (Some promoted) [token first], t').
Proof.
  assert (Hpk : pk_ok two_allowed) by (apply pk_okb_sound; reflexivity).
  assert (Hex : exists r, In r two_allowed /\ status r = Allowed).
  { exists (sample 1 Allowed (Some 10)). split; [simpl; tauto|reflexivity]. }
  assert (Hmax : 1 <= 2 <= Sql.INT8_MAX)
    by (vm_compute; split; discriminate).
  split; [exact Hpk|].
  destruct (snapshot_head_is_next_evicted 2 100 two_allowed Hmax Hpk Hex)
    as (first & rest & Hsnap & _ & _ & _ & _ & _ & _ & _ & Hprom).
  exists first, rest. split; [exact Hsnap|].
  split; [vm_compute in Hsnap; now injection Hsnap as <- _|].
  destruct (Hprom "T3"%string (sample 3 Waiting None) [])
    as (t' & promoted & _ & Heq & _);
    [vm_compute; discriminate|reflexivity|reflexivity|].
  now exists t', promoted.
Defined.

(** C6, as stated, fails when [MAX_ALLOWED] is 0: the state has an
    allowed row, but the snapshot is limited to no row at all and so has
    no first row, while a promotion still evicts the allowed row. *)
Lemma empty_snapshot_yet_eviction :
  In (sample 1 Allowed (Some 10)) one_allowed /\
  getAllowedPatients 0 one_allowed = Some [] /\
  ~ (exists first rest,
       getAllowedPatients 0 one_allowed = Some (first :: rest)) /\
  snd (evict_oldest 100 one_allowed) = [formatToken 1] /\
  fst (setPatientAllowed 0 100 one_allowed "T2")
  = Promoted (Some (set_allowed 100 (sample 2 Waiting None))) [formatToken 1].
Proof.
  split; [simpl; tauto|]. split; [reflexivity|].
  split; [intros (first & rest & H); vm_compute in H; discriminate|].
  split; reflexivity.
Qed.

(** ** The capacity invariant *)

Lemma count_update_done (now : Z) (q : row -> bool) (t : table) :
  Sql.count_allowed (map (fun x => if q x then set_done now x else x) t)
  <= Sql.count_allowed t.
Proof.
  induction t as [|x t IH]; [apply Z.le_refl|].
  simpl map. rewrite !count_allowed_cons.
  unfold allowed_bit at 1.
  destruct (q x); unfold allowed_bit; simpl; destruct (is_allowed x); lia.
Qed.

Lemma insert_spec (r : row) (t t' : table) :
  insert r t = Some t' ->
  t' = t ++ [r] /\ ~ In (id r) (map id t) /\ ~ In (token r) (map token t).
Proof.
  unfold insert.
  destruct (existsb (has_id (id r)) t) eqn:E1; [discriminate|].
  destruct (existsb (has_token (token r)) t) eqn:E2; [discriminate|].
  simpl. destruct (negb (Sql.int4 (id r)) || negb (Sql.int4 (age r)));
    [discriminate|].
  intros [= <-]. split; [reflexivity|]. split.
  - intros Hin. apply in_map_iff in Hin. destruct Hin as (x & Hx & Hin).
    assert (existsb (has_id (id r)) t = true); [|congruence].
    apply existsb_exists. exists x. split; [assumption|now apply has_id_true].
  - intros Hin. apply in_map_iff in Hin. destruct Hin as (x & Hx & Hin).
    assert (existsb (has_token (token r)) t = true); [|congruence].
    apply existsb_exists. exists x.
    split; [assumption|now apply has_token_true].
Qed.

Lemma NoDup_snoc {A} (l : list A) (x : A) :
  NoDup l -> ~ In x l -> NoDup (l ++ [x]).
Proof.
  intros Hl Hx. apply NoDup_app; [assumption|repeat constructor; auto|].
  intros y Hy [<-|[]]. contradiction.
Qed.

(** ** The sequence *)

Lemma next_value_called (v : Z) : next_value (Sql.mkSeq v true) = v + 1.
Proof. reflexivity. Qed.

Lemma nextval_spec (sq : Sql.sequence) :
  Sql.nextval sq
  = if Sql.INT4_MAX <? next_value sq then None
    else Some (next_value sq, Sql.mkSeq (next_value sq) true).
Proof. reflexivity. Qed.

Lemma nextIdentity_tokens (d : db) :
  tokens (snd (nextIdentity d)) = tokens d.
Proof.
  unfold nextIdentity. destruct (tokens_id_seq d); [|reflexivity].
  now destruct (Sql.nextval _) as [[v sq']|].
Qed.

(** On an empty table the counter starts anew. *)
Lemma nextIdentity_empty (d : db) (sq : Sql.sequence) :
  tokens_id_seq d = Some sq -> tokens d = [] ->
  nextIdentity d = (Some 1, mkDb [] (Some (Sql.mkSeq 1 true))).
Proof.
  intros Hsq Ht. unfold nextIdentity. rewrite Hsq, Ht. reflexivity.
Qed.

(** On a table with rows the sequence is read as it stands, and the call
    fails once the sequence is exhausted. *)
Lemma nextIdentity_nonempty (d : db) (sq : Sql.sequence) :
  tokens_id_seq d = Some sq -> tokens d <> [] ->
  nextIdentity d
  = if Sql.INT4_MAX <? next_value sq then (None, d)
    else (Some (next_value sq),
          mkDb (tokens d) (Some (Sql.mkSeq (next_value sq) true))).
Proof.
  intros Hsq Ht. unfold nextIdentity. rewrite Hsq.
  replace (Z.of_nat (List.length (tokens d)) =? 0) with false.
  - rewrite nextval_spec. destruct (Sql.INT4_MAX <? next_value sq);
      [|reflexivity].
    destruct d as [t s]. simpl in *. now subst s.
  - symmetry. apply Z.eqb_neq. destruct (tokens d); [congruence|].
    simpl List.length. lia.
Qed.

Section Capacity.

Variable MAX_ALLOWED : Z.
Hypothesis capacity_positive : 1 <= MAX_ALLOWED.

Lemma count_promoted_table (now : Z) (t : table) (p : row) :
  pk_ok t -> In p t -> status p = Waiting ->
  Sql.count_allowed (promoted_table MAX_ALLOWED now p t)
  = Sql.count_allowed (evicted now (victim_of MAX_ALLOWED t) t) + 1.
Proof.
  intros Hpk Hin Hst. unfold promoted_table.
  rewrite count_rewrite_pk.
  - unfold allowed_bit, is_allowed. rewrite Hst. simpl. lia.
  - now apply pk_evicted.
  - apply in_evicted_unchanged; try assumption; [congruence|].
    apply victim_of_in.
Qed.

Lemma room_after_makeRoomFor (now : Z) (t : table) :
  within_capacity MAX_ALLOWED t ->
  Sql.count_allowed (fst (makeRoomFor MAX_ALLOWED now t 1)) < MAX_ALLOWED.
Proof.
  intros [Hpk Hc]. rewrite makeRoomFor_1 by assumption. simpl.
  rewrite count_after_victim by assumption.
  destruct (MAX_ALLOWED <=? Sql.count_allowed t) eqn:E1;
    destruct (1 <=? Sql.count_allowed t) eqn:E2; simpl;
    bool_to_prop; lia.
Qed.

Lemma setPatientAllowed_within (now : Z) (tok : string) (t : table) :
  within_capacity MAX_ALLOWED t ->
  within_capacity MAX_ALLOWED (snd (setPatientAllowed MAX_ALLOWED now t tok)).
Proof.
  intros Hw. pose proof Hw as [Hpk Hc].
  destruct (filter (has_token (normalize tok)) t) as [|p rest] eqn:Hf.
  - unfold setPatientAllowed. now rewrite Hf.
  - destruct (status p) eqn:Hst.
    + rewrite (setPatientAllowed_waiting MAX_ALLOWED now t tok p rest)
        by assumption.
      simpl. split; [now apply pk_promoted_table|].
      destruct (filter_head_in _ _ _ _ Hf) as [Hin _].
      rewrite count_promoted_table by assumption.
      pose proof (room_after_makeRoomFor now t Hw) as Hroom.
      rewrite makeRoomFor_1 in Hroom by assumption. simpl in Hroom. lia.
    + unfold setPatientAllowed. now rewrite Hf, Hst.
    + unfold setPatientAllowed. now rewrite Hf, Hst.
Qed.

Lemma promote_rows_within (now : Z) (rows : list string) :
  forall t promoted finished t' promoted' finished',
  within_capacity MAX_ALLOWED t ->
  promote_rows MAX_ALLOWED now rows t promoted finished
  = Some (t', promoted', finished') ->
  within_capacity MAX_ALLOWED t'.
Proof.
  induction rows as [|tok rows IH]; simpl;
    intros t promoted finished t' promoted' finished' Hw Hrun.
  - now injection Hrun as <- _ _.
  - pose proof (setPatientAllowed_within now tok t Hw) as Hstep.
    destruct (setPatientAllowed MAX_ALLOWED now t tok) as [[|pt fin] t1];
      [discriminate|].
    simpl in Hstep. eapply IH; eassumption.
Qed.

Lemma post_admit_within (now : Z) (tok : string) (t : table) :
  within_capacity MAX_ALLOWED t ->
  within_capacity MAX_ALLOWED (snd (post_admit MAX_ALLOWED now tok t)).
Proof.
  intros Hw. unfold post_admit.
  pose proof (setPatientAllowed_within now tok t Hw) as Hstep.
  destruct (setPatientAllowed MAX_ALLOWED now t tok) as [[|pt fin] t1];
    [assumption|].
  destruct (getAllowedPatients MAX_ALLOWED t1); assumption.
Qed.

Lemma post_remove_within (now : Z) (tok : string) (t : table) :
  within_capacity MAX_ALLOWED t ->
  within_capacity MAX_ALLOWED (snd (post_remove MAX_ALLOWED now tok t)).
Proof.
  intros Hw. unfold post_remove.
  destruct (filter (has_token (normalize tok)) t); [assumption|].
  simpl. destruct (getAllowedPatients MAX_ALLOWED _); [|assumption].
  simpl. destruct Hw as [Hpk Hc]. split.
  - unfold pk_ok in *. rewrite map_map.
    erewrite map_ext; [exact Hpk|].
    intros x. simpl. now destruct (has_token (normalize tok) x).
  - eapply Z.le_trans; [apply count_update_done|assumption].
Qed.

Lemma post_next_within (now : Z) (b : next_body) (t : table) :
  within_capacity MAX_ALLOWED t ->
  within_capacity MAX_ALLOWED (snd (post_next MAX_ALLOWED now b t)).
Proof.
  intros Hw. unfold post_next.
  destruct (requested b <=? 0); [assumption|].
  destruct (select_waiting (requested b) t) as [[|w ws]|];
    try assumption.
  destruct (promote_rows MAX_ALLOWED now (map token (w :: ws)) t [] [])
    as [[[t1 promoted] finished]|] eqn:Hrun; [|assumption].
  destruct (getAllowedPatients MAX_ALLOWED t1); [|assumption].
  simpl. eapply promote_rows_within; eassumption.
Qed.

Lemma post_checkin_within (now : Z) (b : checkin_body) (d : db) :
  within_capacity MAX_ALLOWED (tokens d) ->
  within_capacity MAX_ALLOWED (tokens (snd (post_checkin now b d))).
Proof.
  intros Hw. unfold post_checkin.
  destruct (negb (truthy (body_name b)) || negb (truthy (body_country b)));
    [assumption|].
  destruct (ageNumber b) as [a|]; [|assumption].
  destruct (a <? 0); [assumption|].
  pose proof (nextIdentity_tokens d) as Hid.
  destruct (nextIdentity d) as [[nextId|] d1]; [|assumption].
  simpl in Hid.
  destruct (js_trim (body_name b)); [|assumption].
  destruct (js_trim (body_country b)); [|assumption].
  destruct (details_param (body_details b)); [|assumption].
  destruct (insert _ (tokens d1)) as [t'|] eqn:Hins; [|assumption].
  simpl. apply insert_spec in Hins. destruct Hins as (-> & Hfresh & _).
  rewrite Hid in *. destruct Hw as [Hpk Hc]. split.
  - unfold pk_ok in *. rewrite map_app. simpl.
    now apply NoDup_snoc.
  - rewrite count_allowed_app. unfold Sql.count_allowed at 2. simpl. lia.
Qed.

Lemma handle_within (now : Z) (q : request) (d : db) :
  within_capacity MAX_ALLOWED (tokens d) ->
  within_capacity MAX_ALLOWED (tokens (snd (handle MAX_ALLOWED now q d))).
Proof.
  intros Hw. destruct q as [b|tok|tok|b]; simpl.
  - now apply post_checkin_within.
  - pose proof (post_admit_within now tok _ Hw) as H.
    destruct (post_admit MAX_ALLOWED now tok (tokens d)) as [[? ?] ?].
    exact H.
  - pose proof (post_remove_within now tok _ Hw) as H.
    destruct (post_remove MAX_ALLOWED now tok (tokens d)) as [[? ?] ?].
    exact H.
  - pose proof (post_next_within now b _ Hw) as H.
    destruct (post_next MAX_ALLOWED now b (tokens d)) as [[? ?] ?].
    exact H.
Qed.

Lemma run_within (qs : list (Z * request)) :
  forall d, within_capacity MAX_ALLOWED (tokens d) ->
  within_capacity MAX_ALLOWED (tokens (run MAX_ALLOWED qs d)).
Proof.
  induction qs as [|[now q] qs IH]; simpl; intros d Hw; [assumption|].
  apply IH. now apply handle_within.
Qed.

End Capacity.

(** C1 (amended): provided [MAX_ALLOWED >= 1], every sequence of requests
    (check-in, single promotion, removal, batch promotion) served from a
    store whose primary key holds and which has at most [MAX_ALLOWED]
    allowed rows ends in such a store again; and in every such store the
    make-room step of a promotion leaves fewer than [MAX_ALLOWED] allowed
    rows before the target is set to allowed. *)
Theorem capacity_invariant (MAX_ALLOWED : Z) (qs : list (Z * request))
    (d : db) :
  1 <= MAX_ALLOWED ->
  pk_ok (tokens d) ->
  Sql.count_allowed (tokens d) <= MAX_ALLOWED ->
  pk_ok (tokens (run MAX_ALLOWED qs d)) /\
  Sql.count_allowed (tokens (run MAX_ALLOWED qs d)) <= MAX_ALLOWED /\
  (forall now,
     Sql.count_allowed
       (fst (makeRoomFor MAX_ALLOWED now (tokens (run MAX_ALLOWED qs d)) 1))
     < MAX_ALLOWED).
Proof.
  intros Hmax Hpk Hc.
  assert (Hw : within_capacity MAX_ALLOWED (tokens (run MAX_ALLOWED qs d))).
  { apply run_within; [assumption|]. now split. }
  destruct Hw as [Hpk' Hc']. split; [assumption|]. split; [assumption|].
  intros now. apply room_after_makeRoomFor; [assumption|]. now split.
Qed.

Lemma capacity_invariant_witness :
  1 <= 2 /\ pk_ok two_allowed /\ Sql.count_allowed two_allowed <= 2 /\
  Sql.count_allowed
    (tokens
       (run 2
          [(100, Admit "T3");
           (110, Checkin (mkCheckin (JStr "Bo") (Some 41) (JStr "IT") JNull));
           (120, Next (mkNext (JNum 4) JUndefined));
           (130, Remove "T3")]
          (mkDb two_allowed (Some (Sql.mkSeq 3 true)))))
  <= 2.
Proof.
  assert (Hmax : 1 <= 2) by lia.
  assert (Hpk : pk_ok two_allowed) by (apply pk_okb_sound; reflexivity).
  assert (Hc : Sql.count_allowed two_allowed <= 2)
    by (vm_compute; discriminate).
  split; [exact Hmax|]. split; [exact Hpk|]. split; [exact Hc|].
  apply (capacity_invariant 2
           [(100, Admit "T3");
            (110, Checkin (mkCheckin (JStr "Bo") (Some 41) (JStr "IT") JNull));
            (120, Next (mkNext (JNum 4) JUndefined));
            (130, Remove "T3")]
           (mkDb two_allowed (Some (Sql.mkSeq 3 true))) Hmax Hpk Hc).
Defined.

(** C1, as stated, fails when [MAX_ALLOWED] is 0: from a store with no
    allowed row, promoting a waiting row finds nobody to evict and sets
    the row to allowed all the same, so one row is allowed. *)
Lemma promotion_exceeds_zero_capacity :
  pk_ok [sample 1 Waiting None] /\
  Sql.count_allowed [sample 1 Waiting None] <= 0 /\
  fst (fst (handle 0 100 (Admit "T1") (mkDb [sample 1 Waiting None] None)))
  = AdmitOk (Some (sample 1 Allowed (Some 100))) /\
  ~ Sql.count_allowed
      (tokens (run 0 [(100, Admit "T1")] (mkDb [sample 1 Waiting None] None)))
    <= 0.
Proof.
  split; [apply pk_okb_sound; reflexivity|].
  split; [vm_compute; discriminate|].
  split; [reflexivity|].
  vm_compute. intros H. now apply H.
Qed.

(** ** Identities *)

Lemma seq_aheadb_sound (d : db) : seq_aheadb d = true -> seq_ahead d.
Proof.
  unfold seq_aheadb, seq_ahead. destruct (tokens_id_seq d); [|trivial].
  intros H r Hin. rewrite forallb_forall in H. specialize (H r Hin).
  bool_to_prop. lia.
Qed.

(** C8 (amended): on a store whose sequence is ahead of the table,
    [nextIdentity] fails without a value when no sequence is found, and
    when the table has rows and the sequence has passed its maximum
    2147483647; otherwise it returns an identity between 1 and that
    maximum, strictly greater than the identity of every row of the
    table, leaving the sequence ahead again.  When the table is not empty
    the identity is the next value of the sequence, and the call after it
    returns the following integer, or fails if the maximum was reached.
    On an empty table the counter is initialised anew and the call
    returns 1, whatever was issued before. *)
Theorem nextIdentity_fresh_for_store (d : db) :
  seq_ahead d ->
  match tokens_id_seq d with
  | None => nextIdentity d = (None, d)
  | Some sq =>
      (tokens d <> [] -> Sql.INT4_MAX < next_value sq ->
       nextIdentity d = (None, d)) /\
      (tokens d = [] \/ next_value sq <= Sql.INT4_MAX ->
       exists v d',
         nextIdentity d = (Some v, d') /\
         tokens d' = tokens d /\
         1 <= v <= Sql.INT4_MAX /\
         (forall r, In r (tokens d) -> id r < v) /\
         (tokens d = [] -> v = 1) /\
         (tokens d <> [] ->
          v = next_value sq /\
          (v < Sql.INT4_MAX ->
           exists d'', nextIdentity d' = (Some (v + 1), d'')) /\
          (v = Sql.INT4_MAX -> nextIdentity d' = (None, d'))) /\
         seq_ahead d' /\
         (forall r, id r = v -> seq_ahead (mkDb (tokens d ++ [r])
                                              (tokens_id_seq d'))))
  end.
Proof.
  intros Hah. unfold seq_ahead in Hah.
  destruct (tokens_id_seq d) as [sq|] eqn:Hsq.
  2:{ unfold nextIdentity. now rewrite Hsq. }
  split.
  { intros Hne Hmax. rewrite (nextIdentity_nonempty d sq Hsq Hne).
    now replace (Sql.INT4_MAX <? next_value sq) with true
      by (symmetry; apply Z.ltb_lt; exact Hmax). }
  intros Hroom.
  destruct (tokens d) as [|x t] eqn:Ht.
  - rewrite (nextIdentity_empty d sq Hsq Ht).
    eexists. eexists. split; [reflexivity|]. simpl.
    split; [reflexivity|]. split; [unfold Sql.INT4_MAX; lia|].
    split; [intros r []|]. split; [reflexivity|].
    split; [intros H; now contradiction H|].
    split.
    + unfold seq_ahead. simpl. intros r [].
    + intros r Hr. unfold seq_ahead. simpl.
      intros r' [<-|[]]. rewrite next_value_called. lia.
  - assert (Hne : tokens d <> []) by (rewrite Ht; discriminate).
    destruct Hroom as [Hnil|Hle]; [discriminate|].
    rewrite (nextIdentity_nonempty d sq Hsq Hne).
    replace (Sql.INT4_MAX <? next_value sq) with false
      by (symmetry; apply Z.ltb_ge; exact Hle).
    assert (Hx : 1 <= id x < next_value sq) by (apply Hah; now left).
    eexists. eexists. split; [reflexivity|]. simpl.
    split; [exact Ht|]. split; [lia|].
    split; [intros r Hr; now apply Hah|].
    split; [discriminate|].
    split.
    + intros _. split; [reflexivity|].
      split; intros Hv.
      * rewrite (nextIdentity_nonempty _ (Sql.mkSeq (next_value sq) true));
          [|reflexivity|assumption].
        rewrite next_value_called.
        replace (Sql.INT4_MAX <? next_value sq + 1) with false
          by (symmetry; apply Z.ltb_ge; lia).
        eexists. reflexivity.
      * rewrite (nextIdentity_nonempty _ (Sql.mkSeq (next_value sq) true));
          [|reflexivity|assumption].
        rewrite next_value_called.
        now replace (Sql.INT4_MAX <? next_value sq + 1) with true
          by (symmetry; apply Z.ltb_lt; lia).
    + split.
      * unfold seq_ahead. simpl. intros r Hr. rewrite Ht in Hr.
        specialize (Hah r Hr). rewrite next_value_called. lia.
      * intros r Hr. unfold seq_ahead. simpl.
        intros r' Hin. rewrite next_value_called.
        destruct Hin as [<-|Hin]; [lia|].
        apply in_app_or in Hin. destruct Hin as [Hin|[<-|[]]].
        -- specialize (Hah r' (or_intror Hin)). lia.
        -- lia.
Qed.

Lemma nextIdentity_fresh_for_store_witness :
  seq_ahead (mkDb two_allowed (Some (Sql.mkSeq 3 true))) /\
  exists d', nextIdentity (mkDb two_allowed (Some (Sql.mkSeq 3 true)))
             = (Some 4, d').
Proof.
  assert (Hah : seq_ahead (mkDb two_allowed (Some (Sql.mkSeq 3 true))))
    by (apply seq_aheadb_sound; reflexivity).
  split; [exact Hah|].
  destruct (nextIdentity_fresh_for_store _ Hah) as [_ Hok].
  destruct Hok as (v & d' & Heq & _); [right; vm_compute; discriminate|].
  exists d'. rewrite Heq. vm_compute in Heq. now injection Heq as <- _.
Defined.

(** C8, as stated, fails while the table is empty: a check-in whose
    [name] is a number is issued identity 1 and then fails, leaving the
    table empty; the next call of the allocator, and the next check-in,
    are issued identity 1 again. *)
Lemma identity_issued_again :
  fst (nextIdentity fresh_db) = Some 1 /\
  post_checkin 100 numeric_name fresh_db
  = (ServerError, [], snd (nextIdentity fresh_db)) /\
  fst (nextIdentity (snd (nextIdentity fresh_db))) = Some 1 /\
  ~ (forall v1 v2,
       fst (nextIdentity fresh_db) = Some v1 ->
       fst (nextIdentity (snd (nextIdentity fresh_db))) = Some v2 ->
       v1 < v2) /\
  fst (fst (post_checkin 110 good_body
              (snd (post_checkin 100 numeric_name fresh_db))))
  = CheckinOk (formatToken 1)
      (mkRow 1 (formatToken 1) "Ada" 30 "FR" None Waiting None None
             (Some 110)).
Proof.
  split; [reflexivity|]. split; [reflexivity|]. split; [reflexivity|].
  split; [|reflexivity].
  intros H. specialize (H 1 1 eq_refl eq_refl). lia.
Qed.

(** ** Columns no statement writes *)

Section Columns.

Variable A : Type.
Variable col : row -> A.
Hypothesis col_set_done : forall now r, col (set_done now r) = col r.
Hypothesis col_set_allowed : forall now r, col (set_allowed now r) = col r.
Variable MAX_ALLOWED : Z.

Lemma update_col (p : row -> bool) (f : row -> row) (t : table) :
  (forall r, col (f r) = col r) ->
  map col (fst (Sql.update p f t)) = map col t.
Proof.
  intros Hf. simpl. rewrite map_map. apply map_ext.
  intros r. now destruct (p r).
Qed.

Lemma evict_oldest_col (now : Z) (t : table) :
  map col (fst (evict_oldest now t)) = map col t.
Proof.
  unfold evict_oldest. destruct (oldest_allowed t) as [o|]; [|reflexivity].
  apply (update_col (has_id (id o)) (set_done now) t). apply col_set_done.
Qed.

Lemma makeRoomFor_col (now : Z) (slotsNeeded : nat) :
  forall t, map col (fst (makeRoomFor MAX_ALLOWED now t slotsNeeded))
            = map col t.
Proof.
  induction slotsNeeded as [|k IH]; intros t; simpl; [reflexivity|].
  destruct (Sql.count_allowed t <? MAX_ALLOWED); [reflexivity|].
  pose proof (evict_oldest_col now t) as He.
  destruct (evict_oldest now t) as [t' [|finished rest]]; [exact He|].
  specialize (IH t').
  destruct (makeRoomFor MAX_ALLOWED now t' k) as [t'' fin].
  simpl in *. congruence.
Qed.

Lemma setPatientAllowed_col (now : Z) (tok : string) (t : table) :
  map col (snd (setPatientAllowed MAX_ALLOWED now t tok)) = map col t.
Proof.
  unfold setPatientAllowed.
  destruct (filter (has_token (normalize tok)) t) as [|p rest];
    [reflexivity|].
  destruct (status p); try reflexivity.
  pose proof (makeRoomFor_col now 1 t) as Hm.
  destruct (makeRoomFor MAX_ALLOWED now t 1) as [t1 fin].
  pose proof (update_col (has_id (id p)) (set_allowed now) t1
                (col_set_allowed now)) as Hu.
  destruct (Sql.update (has_id (id p)) (set_allowed now) t1) as [t2 rows].
  simpl in *. congruence.
Qed.

Lemma promote_rows_col (now : Z) (rows : list string) :
  forall t promoted finished t' promoted' finished',
  promote_rows MAX_ALLOWED now rows t promoted finished
  = Some (t', promoted', finished') ->
  map col t' = map col t.
Proof.
  induction rows as [|tok rows IH]; simpl;
    intros t promoted finished t' promoted' finished' Hrun.
  - now injection Hrun as <- _ _.
  - pose proof (setPatientAllowed_col now tok t) as Hstep.
    destruct (setPatientAllowed MAX_ALLOWED now t tok) as [[|pt fin] t1];
      [discriminate|].
    simpl in Hstep. rewrite <- Hstep. eapply IH; eassumption.
Qed.

End Columns.

(** ** A stale token in a batch *)

Section Batch.

Variable MAX_ALLOWED : Z.

Lemma setPatientAllowed_tokens (now : Z) (tok : string) (t : table) :
  map token (snd (setPatientAllowed MAX_ALLOWED now t tok)) = map token t.
Proof. now apply setPatientAllowed_col. Qed.

Lemma unknown_token_not_found (now : Z) (tok : string) (t : table) :
  ~ In (normalize tok) (map token t) ->
  setPatientAllowed MAX_ALLOWED now t tok = (NotFound, t).
Proof.
  intros H. unfold setPatientAllowed. now rewrite filter_token_none.
Qed.

(** A token no row carries makes the whole loop throw, wherever it stands
    in the batch and whatever the other rows are. *)
Lemma unknown_token_aborts_loop (now : Z) (tok : string)
    (rows : list string) :
  In tok rows ->
  forall t promoted finished,
  ~ In (normalize tok) (map token t) ->
  promote_rows MAX_ALLOWED now rows t promoted finished = None.
Proof.
  induction rows as [|k rows IH]; intros Hin t promoted finished Habs;
    [destruct Hin|].
  simpl. destruct Hin as [->|Hin].
  - now rewrite unknown_token_not_found.
  - pose proof (setPatientAllowed_tokens now k t) as Ht.
    destruct (setPatientAllowed MAX_ALLOWED now t k) as [[|pt fin] t1];
      [reflexivity|].
    simpl in Ht. apply IH; [assumption|]. now rewrite Ht.
Qed.

Lemma not_found_aborts_loop (now : Z) (tok : string) (rest : list string)
    (t : table) (promoted : list row) (finished : list string) :
  fst (setPatientAllowed MAX_ALLOWED now t tok) = NotFound ->
  promote_rows MAX_ALLOWED now (tok :: rest) t promoted finished = None.
Proof.
  intros H. simpl.
  destruct (setPatientAllowed MAX_ALLOWED now t tok) as [[|pt fin] t1];
    [reflexivity|discriminate].
Qed.

End Batch.

(** C7 (the code departs from it): a NotFound inside a batch is not
    skipped.  The loop spreads the missing [tokensFinished] and throws, so
    the handler rolls back and answers 500: on a store whose first waiting
    row fails its look-up, [/api/next] promotes nobody, although the second
    row on its own would be promoted; the same happens in the loop when a
    selected token has been finished in the meantime. *)
Theorem batch_aborts_on_not_found :
  select_waiting 2 lower_case_token = Some lower_case_token /\
  fst (setPatientAllowed 2 100 lower_case_token "t1") = NotFound /\
  fst (setPatientAllowed 2 100 lower_case_token (formatToken 2))
  = Promoted (Some (sample 2 Allowed (Some 100))) [] /\
  promote_rows 2 100 (map token lower_case_token) lower_case_token [] []
  = None /\
  post_next 2 100 (mkNext (JNum 2) JUndefined) lower_case_token
  = (ServerError, [], lower_case_token) /\
  fst (setPatientAllowed 2 100 three_removed (formatToken 3)) = NotFound /\
  promote_rows 2 100 [formatToken 3] three_removed [] [] = None.
Proof.
  repeat split; reflexivity.
Qed.

(** ** A batch over waiting rows *)

Lemma normalized_by_tokens (t t' : table) :
  map token t' = map token t -> normalized t -> normalized t'.
Proof.
  intros Hm Hn r' Hin'.
  assert (H : In (token r') (map token t)).
  { rewrite <- Hm. now apply in_map. }
  apply in_map_iff in H. destruct H as (r & Hr & Hin).
  rewrite <- Hr. now apply Hn.
Qed.

Lemma distinct_keys_filter {K : Type} (key : row -> K) (keep : row -> bool)
    (rows : list row) :
  NoDup (map key rows) -> NoDup (map key (filter keep rows)).
Proof.
  intros Hnd. induction rows as [|x rows IH]; simpl; [constructor|].
  simpl in Hnd. inversion Hnd as [|? ? Hx Hl]; subst.
  destruct (keep x); simpl; [|auto].
  constructor; [|auto].
  intros Hin. apply Hx. apply in_map_iff in Hin.
  destruct Hin as (y & Hy & Hin). apply filter_In in Hin.
  rewrite <- Hy. apply in_map. tauto.
Qed.

Lemma NoDup_firstn {A} (n : nat) (l : list A) :
  NoDup l -> NoDup (firstn n l).
Proof.
  revert l. induction n as [|n IH]; intros l H; simpl; [constructor|].
  destruct l as [|x l]; [constructor|].
  inversion H as [|? ? Hx Hl]; subst. constructor; [|auto].
  intros Hin. apply Hx. revert Hin. clear.
  revert l. induction n as [|n IH]; intros l; simpl; [tauto|].
  destruct l as [|y l]; simpl; [tauto|]. intros [->|H]; auto.
Qed.

Lemma In_firstn {A} (n : nat) (l : list A) (x : A) :
  In x (firstn n l) -> In x l.
Proof.
  revert l. induction n as [|n IH]; intros l; simpl; [tauto|].
  destruct l as [|y l]; simpl; [tauto|]. intros [->|H]; auto.
Qed.

Lemma some_or_all {A} (P Q : A -> Prop) (l : list A) :
  (forall x, In x l -> P x \/ Q x) ->
  (exists x, In x l /\ Q x) \/ (forall x, In x l -> P x).
Proof.
  induction l as [|x l IH]; intros H; [right; intros x []|].
  destruct (H x (or_introl eq_refl)) as [Hp|Hq].
  - destruct IH as [(y & Hy & Hq)|Hall].
    + intros y Hy. apply H. now right.
    + left. exists y. split; [now right|assumption].
    + right. intros y [<-|Hy]; auto.
  - left. exists x. split; [now left|assumption].
Qed.

Lemma allowed_rows_counted (l : list row) (t : table) :
  NoDup l ->
  (forall x, In x l -> In x t /\ status x = Allowed) ->
  Z.of_nat (List.length l) <= Sql.count_allowed t.
Proof.
  intros Hnd Hall. unfold Sql.count_allowed.
  apply inj_le. apply NoDup_incl_length; [assumption|].
  intros x Hx. apply filter_In. destruct (Hall x Hx) as [Hin Hst].
  split; [assumption|now apply is_allowed_true].
Qed.

Section BatchOfWaiting.

Variable MAX_ALLOWED : Z.

(** What one promotion does to each row of the table. *)
Lemma promoted_table_rows (now : Z) (t : table) (p : row) :
  pk_ok t -> In p t -> status p = Waiting ->
  In (set_allowed now p) (promoted_table MAX_ALLOWED now p t) /\
  forall r, In r t -> r <> p ->
    In r (promoted_table MAX_ALLOWED now p t) \/
    (status r = Allowed /\
     In (set_done now r) (promoted_table MAX_ALLOWED now p t) /\
     In (token r) (victim_token (victim_of MAX_ALLOWED t))).
Proof.
  intros Hpk Hp Hst. unfold promoted_table. split.
  - replace (set_allowed now p)
      with (rewrite_id (id p) (set_allowed now) p)
      by (now apply rewrite_id_hit).
    apply in_map. apply in_evicted_unchanged; try assumption; [congruence|].
    apply victim_of_in.
  - intros r Hr Hne.
    assert (Hid : id r <> id p).
    { intros Hid. apply Hne. now apply (same_id_same_row t). }
    destruct (victim_of MAX_ALLOWED t) as [o|] eqn:Hv; simpl.
    + destruct (victim_of_in MAX_ALLOWED t o Hv) as [Ho Hso].
      destruct (Z.eq_dec (id r) (id o)) as [E|E].
      * right. assert (r = o) by now apply (same_id_same_row t).
        subst r. split; [assumption|]. split; [|now left].
        replace (set_done now o)
          with (rewrite_id (id p) (set_allowed now)
                  (rewrite_id (id o) (set_done now) o)).
        -- now apply in_map, in_map.
        -- rewrite (rewrite_id_hit (id o)) by reflexivity.
           now apply rewrite_id_miss.
      * left.
        replace r
          with (rewrite_id (id p) (set_allowed now)
                  (rewrite_id (id o) (set_done now) r)) at 1.
        -- now apply in_map, in_map.
        -- rewrite (rewrite_id_miss (id o)) by assumption.
           now apply rewrite_id_miss.
    + left.
      replace r with (rewrite_id (id p) (set_allowed now) r) at 1
        by (now apply rewrite_id_miss).
      now apply in_map.
Qed.

Lemma promoted_table_tokens (now : Z) (t : table) (p : row) :
  map token (promoted_table MAX_ALLOWED now p t) = map token t.
Proof.
  unfold promoted_table.
  rewrite map_token_rewrite by reflexivity.
  destruct (victim_of MAX_ALLOWED t); simpl; [|reflexivity].
  now rewrite map_token_rewrite.
Qed.

(** The loop of [/api/next] over rows that are waiting, whatever the
    capacity is: every row is promoted, and a row leaves the allowed set
    only by eviction, its token then being reported. *)
Lemma promote_rows_waiting (now : Z) (ws : list row) :
  forall (t : table) (promoted : list row) (finished : list string),
  pk_ok t -> token_unique t -> normalized t ->
  NoDup (map id ws) ->
  (forall w, In w ws -> In w t /\ status w = Waiting) ->
  exists t' fin,
    promote_rows MAX_ALLOWED now (map token ws) t promoted finished
    = Some (t', promoted ++ map (set_allowed now) ws, finished ++ fin) /\
    pk_ok t' /\
    (forall w, In w ws ->
       In (set_allowed now w) t' \/
       (In (set_done now (set_allowed now w)) t' /\ In (token w) fin)) /\
    (forall r, In r t -> ~ In r ws ->
       In r t' \/
       (status r = Allowed /\ In (set_done now r) t' /\ In (token r) fin)).
Proof.
  induction ws as [|w ws IH];
    intros t promoted finished Hpk Hu Hn Hnd Hws.
  - exists t, []. simpl. rewrite !app_nil_r.
    split; [reflexivity|]. split; [assumption|].
    split; [intros w []|]. intros r Hr _. now left.
  - destruct (Hws w (or_introl eq_refl)) as [Hin Hst].
    assert (Hf : filter (has_token (normalize (token w))) t = [w]).
    { rewrite (Hn w Hin). now apply filter_by_token. }
    simpl map. simpl promote_rows.
    rewrite (setPatientAllowed_waiting MAX_ALLOWED now t (token w) w [])
      by assumption.
    set (t1 := promoted_table MAX_ALLOWED now w t).
    assert (Hw1 : pk_ok t1) by (now apply pk_promoted_table).
    pose proof (promoted_table_tokens now t w) as Htok. fold t1 in Htok.
    assert (Hu1 : token_unique t1) by (unfold token_unique; now rewrite Htok).
    assert (Hn1 : normalized t1) by (now apply (normalized_by_tokens t)).
    destruct (promoted_table_rows now t w Hpk Hin Hst) as [Hpw Hothers].
    fold t1 in Hpw, Hothers.
    inversion Hnd as [|? ? Hwid Hnd']; subst.
    assert (Hws1 : forall w', In w' ws -> In w' t1 /\ status w' = Waiting).
    { intros w' Hw'. destruct (Hws w' (or_intror Hw')) as [Hin' Hst'].
      split; [|assumption].
      destruct (Hothers w' Hin') as [H|(Ha & _)]; [|assumption|congruence].
      intros ->. apply Hwid. now apply in_map. }
    destruct (IH t1 (promoted ++ [set_allowed now w])
                (finished ++ victim_token (victim_of MAX_ALLOWED t))
                Hw1 Hu1 Hn1 Hnd' Hws1)
      as (t' & fin & Hrun & Hw' & Hsel & Hrest).
    exists t', (victim_token (victim_of MAX_ALLOWED t) ++ fin).
    split; [|split; [assumption|split]].
    + rewrite Hrun. simpl map. now rewrite <- !app_assoc.
    + intros w' [<-|Hw'in].
      * destruct (Hrest (set_allowed now w) Hpw) as [H|(_ & H1 & H2)].
        -- intros Hin'. destruct (Hws1 _ Hin') as [_ Hs]. discriminate.
        -- now left.
        -- right. split; [assumption|]. apply in_or_app. now right.
      * destruct (Hsel w' Hw'in) as [H|[H1 H2]]; [now left|].
        right. split; [assumption|]. apply in_or_app. now right.
    + intros r Hr Hnot.
      assert (Hne : r <> w) by (intros ->; apply Hnot; now left).
      assert (Hnot' : ~ In r ws) by (intros H; apply Hnot; now right).
      destruct (Hothers r Hr Hne) as [H|(Ha & Hd & Ht)].
      * destruct (Hrest r H Hnot') as [H'|(Ha & Hd & Ht)]; [now left|].
        right. split; [assumption|]. split; [assumption|].
        apply in_or_app. now right.
      * right. split; [assumption|].
        destruct (Hrest (set_done now r) Hd) as [H'|(Hs & _)].
        -- intros Hin'. destruct (Hws1 _ Hin') as [_ Hs]. discriminate.
        -- split; [assumption|]. apply in_or_app. now left.
        -- discriminate.
Qed.

End BatchOfWaiting.

Lemma select_waiting_spec (n : Z) (t : table) :
  0 <= n <= Sql.INT8_MAX -> pk_ok t ->
  exists ws,
    select_waiting n t = Some ws /\
    Z.of_nat (List.length ws)
    = Z.min n (Z.of_nat (List.length (filter is_waiting t))) /\
    NoDup (map id ws) /\
    (forall w, In w ws -> In w t /\ status w = Waiting).
Proof.
  intros Hn Hpk. unfold select_waiting, Sql.limit.
  replace (Sql.INT8_MAX <? n) with false by (symmetry; apply Z.ltb_ge; lia).
  replace (n <? 0) with false by (symmetry; apply Z.ltb_ge; lia).
  eexists. split; [reflexivity|].
  pose proof (order_by_perm Sql.by_id (filter is_waiting t)) as Hperm.
  split; [|split].
  - rewrite length_firstn, (Permutation_length Hperm). lia.
  - rewrite <- firstn_map. apply NoDup_firstn.
    apply (Permutation_NoDup (Permutation_sym (Permutation_map id Hperm))).
    now apply distinct_keys_filter.
  - intros w Hw. apply In_firstn in Hw.
    apply (Permutation_in w Hperm) in Hw. apply filter_In in Hw.
    destruct Hw as [Hin Hst]. split; [assumption|].
    now apply is_waiting_true.
Qed.

(** C10 (amended): with [0 <= MAX_ALLOWED < 2^63], in a store that keeps
    its keys (unique ids, unique tokens stored in normalized form), a
    batch of size [n], [0 < n < 2^63], over [k >= 1] waiting rows answers
    with
    a promoted count of [min n k]: the rows selected are [min n k]
    waiting rows, and each of them leaves [Waiting] with [admitted_at]
    stamped by the batch.  When moreover [MAX_ALLOWED >= 1], the store
    holds at most [MAX_ALLOWED] allowed rows and [min n k] exceeds
    [MAX_ALLOWED], some row that was waiting is first promoted and then
    evicted by the same batch: it ends [Done] with both [admitted_at]
    and [finished_at] stamped by the batch, and its token is among the
    finished tokens the call emits. *)
Theorem batch_promotes_every_selected_row (MAX_ALLOWED now : Z)
    (b : next_body) (t : table) :
  0 <= MAX_ALLOWED <= Sql.INT8_MAX ->
  pk_ok t -> token_unique t -> normalized t ->
  0 < requested b <= Sql.INT8_MAX ->
  1 <= Z.of_nat (List.length (filter is_waiting t)) ->
  exists t' finishedTokens allowed,
    post_next MAX_ALLOWED now b t
    = (NextOk
         (Z.to_nat
            (Z.min (requested b)
               (Z.of_nat (List.length (filter is_waiting t))))),
       map PatientFinished finishedTokens ++ [AllowedUpdate allowed],
       t') /\
    (exists ws,
       select_waiting (requested b) t = Some ws /\
       Z.of_nat (List.length ws)
       = Z.min (requested b)
           (Z.of_nat (List.length (filter is_waiting t))) /\
       forall w, In w ws ->
         In w t /\ status w = Waiting /\
         exists w', In w' t' /\ id w' = id w /\ token w' = token w /\
                    status w' <> Waiting /\ admitted_at w' = Some now) /\
    (1 <= MAX_ALLOWED -> Sql.count_allowed t <= MAX_ALLOWED ->
     MAX_ALLOWED
     < Z.min (requested b) (Z.of_nat (List.length (filter is_waiting t))) ->
     exists w gone,
       In w t /\ status w = Waiting /\
       In (token w) finishedTokens /\
       In gone t' /\ id gone = id w /\ token gone = token w /\
       status gone = Done /\
       admitted_at gone = Some now /\ finished_at gone = Some now).
Proof.
  intros Hmax Hpk Hu Hn Hreq Hk.
  destruct (select_waiting_spec (requested b) t)
    as (ws & Hsel & Hlen & Hnd & Hws); [lia|assumption|].
  destruct (promote_rows_waiting MAX_ALLOWED now ws t [] []
              Hpk Hu Hn Hnd Hws)
    as (t' & fin & Hrun & Hpk' & Hsel' & _).
  simpl in Hrun.
  exists t', fin.
  exists (firstn (Z.to_nat MAX_ALLOWED)
            (Sql.order_by Sql.by_admitted_at_id (filter is_allowed t'))).
  split; [|split].
  - unfold post_next.
    replace (requested b <=? 0) with false by (symmetry; apply Z.leb_gt; lia).
    rewrite Hsel.
    destruct ws as [|w ws']; [simpl in Hlen; lia|].
    rewrite Hrun. unfold getAllowedPatients, Sql.limit.
    replace (MAX_ALLOWED <? 0) with false by (symmetry; apply Z.ltb_ge; lia).
    rewrite length_map. rewrite <- Hlen, Nat2Z.id. reflexivity.
  - exists ws. split; [exact Hsel|]. split; [exact Hlen|].
    intros w Hin. destruct (Hws w Hin) as [Hwt Hst].
    split; [assumption|]. split; [assumption|].
    destruct (Hsel' w Hin) as [H|[H _]]; eexists; (split; [exact H|]);
      simpl; repeat split; discriminate.
  - intros Hpos Hc Hover.
    destruct (some_or_all _ _ ws Hsel') as [(w & Hin & Hd & Hf)|Hall].
    + exists w, (set_done now (set_allowed now w)).
      destruct (Hws w Hin) as [Hwt Hst]. simpl. tauto.
    + exfalso.
      assert (Hw' : within_capacity MAX_ALLOWED t').
      { eapply (promote_rows_within MAX_ALLOWED Hpos now (map token ws)
                  t [] []); [now split|exact Hrun]. }
      destruct Hw' as [_ Hc'].
      assert (Hcount : Z.of_nat (List.length (map (set_allowed now) ws))
                       <= Sql.count_allowed t').
      { apply allowed_rows_counted.
        - apply (NoDup_map_inv id). rewrite map_map. exact Hnd.
        - intros x Hx. apply in_map_iff in Hx.
          destruct Hx as (w & <- & Hin). split; [now apply Hall|reflexivity]. }
      rewrite length_map in Hcount. lia.
Qed.

Lemma batch_promotes_every_selected_row_witness :
  exists t' finishedTokens allowed,
    post_next 1 100 (mkNext (JNum 5) JUndefined)
      [sample 1 Waiting None; sample 2 Waiting None]
    = (NextOk 2,
       map PatientFinished finishedTokens ++ [AllowedUpdate allowed], t') /\
    exists w gone,
      In w [sample 1 Waiting None; sample 2 Waiting None] /\
      In (token w) finishedTokens /\
      In gone t' /\ id gone = id w /\ status gone = Done.
Proof.
  destruct (batch_promotes_every_selected_row 1 100
              (mkNext (JNum 5) JUndefined)
              [sample 1 Waiting None; sample 2 Waiting None])
    as (t' & fin & allowed & Heq & _ & Hevict).
  - vm_compute. split; discriminate.
  - apply pk_okb_sound; reflexivity.
  - apply token_uniqueb_sound; reflexivity.
  - apply normalizedb_sound; reflexivity.
  - vm_compute. split; [reflexivity|discriminate].
  - vm_compute; discriminate.
  - exists t', fin, allowed. split; [exact Heq|].
    destruct Hevict as (w & gone & Hin & _ & Hf & Hg & Hid & _ & Hd & _);
      [lia|vm_compute; discriminate|vm_compute; reflexivity|].
    exists w, gone. auto.
Defined.

(** C10, as stated, fails in several ways.  With [MAX_ALLOWED = 0] a
    batch of one waiting row promotes it and finishes nobody, although
    [min n k = 1] exceeds [MAX_ALLOWED].  With [MAX_ALLOWED = 1] and three
    rows allowed, a batch of two waiting rows ([min n k = 2]) finishes the
    two oldest of the rows allowed before, never a row it promoted.  A
    batch of size [2^63] over one waiting row ([min n k = 1]) is refused
    by the store, as is any batch when [MAX_ALLOWED] is negative or when
    a waiting row's token is not stored in normalized form: the answer
    is a server error and nobody is promoted. *)
Lemma batch_without_self_eviction :
  (0 < Z.min 1 (Z.of_nat (List.length
                            (filter is_waiting [sample 1 Waiting None]))) /\
   post_next 0 100 (mkNext (JNum 1) JUndefined) [sample 1 Waiting None]
   = (NextOk 1, [AllowedUpdate []], [sample 1 Allowed (Some 100)])) /\
  (1 < Z.min 2 (Z.of_nat (List.length (filter is_waiting over_capacity))) /\
   map token (filter is_waiting over_capacity)
   = [formatToken 4; formatToken 5] /\
   fst (post_next 1 100 (mkNext (JNum 2) JUndefined) over_capacity)
   = (NextOk 2,
      [PatientFinished (formatToken 1); PatientFinished (formatToken 2);
       AllowedUpdate [sample 3 Allowed (Some 30)]])) /\
  (Z.min (Sql.INT8_MAX + 1)
     (Z.of_nat (List.length (filter is_waiting [sample 1 Waiting None])))
   = 1 /\
   post_next 1 100 (mkNext (JNum (Sql.INT8_MAX + 1)) JUndefined)
     [sample 1 Waiting None]
   = (ServerError, [], [sample 1 Waiting None])) /\
  post_next (-1) 100 (mkNext (JNum 1) JUndefined) [sample 1 Waiting None]
  = (ServerError, [], [sample 1 Waiting None]) /\
  (Z.min 2 (Z.of_nat (List.length (filter is_waiting lower_case_token)))
   = 2 /\
   pk_ok lower_case_token /\ token_unique lower_case_token /\
   post_next 2 100 (mkNext (JNum 2) JUndefined) lower_case_token
   = (ServerError, [], lower_case_token)).
Proof.
  repeat split; try reflexivity.
  - apply pk_okb_sound; reflexivity.
  - apply token_uniqueb_sound; reflexivity.
Qed.

(** ** Tokens made by [formatToken] are in normalized form *)

Lemma trimEnd_plain (s : string) : all_plain s = true -> Str.trimEnd s = s.
Proof.
  induction s as [|c s IH]; simpl; intros H; [reflexivity|].
  apply andb_true_iff in H. destruct H as [Hc Hs].
  rewrite (IH Hs). unfold plain_char in Hc.
  apply andb_true_iff in Hc. destruct Hc as [Hsp _].
  apply negb_true_iff in Hsp. rewrite Hsp. now destruct s.
Qed.

Lemma toUpperCase_plain (s : string) :
  all_plain s = true -> Str.toUpperCase s = s.
Proof.
  induction s as [|c s IH]; simpl; intros H; [reflexivity|].
  apply andb_true_iff in H. destruct H as [Hc Hs].
  rewrite (IH Hs). unfold plain_char in Hc.
  apply andb_true_iff in Hc. destruct Hc as [_ Hup].
  apply Ascii.eqb_eq in Hup. now rewrite Hup.
Qed.

Lemma digits_plain (d : Decimal.uint) :
  all_plain (NilEmpty.string_of_uint d) = true.
Proof. induction d; simpl; auto. Qed.

Lemma decimal_plain (d : Decimal.int) :
  all_plain (NilZero.string_of_int d) = true.
Proof.
  destruct d as [u|u]; simpl; unfold NilZero.string_of_uint;
    destruct u; try reflexivity; simpl; apply digits_plain.
Qed.

Lemma normalize_formatToken (i : Z) : normalize (formatToken i) = formatToken i.
Proof.
  assert (Hp : all_plain (formatToken i) = true).
  { unfold formatToken. simpl all_plain. now rewrite decimal_plain. }
  unfold normalize, Str.trim.
  replace (Str.trimStart (formatToken i)) with (formatToken i)
    by reflexivity.
  rewrite trimEnd_plain by assumption. now apply toUpperCase_plain.
Qed.

(** ** Well-formed stores stay well formed *)

Section WellFormed.

Variable MAX_ALLOWED : Z.

Lemma post_admit_col {A} (col : row -> A) (now : Z) (tok : string)
    (t : table) :
  (forall now r, col (set_done now r) = col r) ->
  (forall now r, col (set_allowed now r) = col r) ->
  map col (snd (post_admit MAX_ALLOWED now tok t)) = map col t.
Proof.
  intros Hd Ha. unfold post_admit.
  pose proof (setPatientAllowed_col A col Hd Ha MAX_ALLOWED now tok t) as H.
  destruct (setPatientAllowed MAX_ALLOWED now t tok) as [[|pt fin] t1];
    [reflexivity|].
  destruct (getAllowedPatients MAX_ALLOWED t1); [exact H|reflexivity].
Qed.

Lemma post_remove_col {A} (col : row -> A) (now : Z) (tok : string)
    (t : table) :
  (forall now r, col (set_done now r) = col r) ->
  map col (snd (post_remove MAX_ALLOWED now tok t)) = map col t.
Proof.
  intros Hd. unfold post_remove.
  destruct (filter (has_token (normalize tok)) t); [reflexivity|].
  simpl. destruct (getAllowedPatients MAX_ALLOWED _); [|reflexivity].
  simpl. rewrite map_map. apply map_ext. intros x.
  now destruct (has_token (normalize tok) x).
Qed.

Lemma post_next_col {A} (col : row -> A) (now : Z) (b : next_body)
    (t : table) :
  (forall now r, col (set_done now r) = col r) ->
  (forall now r, col (set_allowed now r) = col r) ->
  map col (snd (post_next MAX_ALLOWED now b t)) = map col t.
Proof.
  intros Hd Ha. unfold post_next.
  destruct (requested b <=? 0); [reflexivity|].
  destruct (select_waiting (requested b) t) as [[|w ws]|];
    try reflexivity.
  destruct (promote_rows MAX_ALLOWED now (map token (w :: ws)) t [] [])
    as [[[t1 promoted] finished]|] eqn:Hrun; [|reflexivity].
  destruct (getAllowedPatients MAX_ALLOWED t1); [|reflexivity].
  simpl. eapply promote_rows_col; eassumption.
Qed.

Lemma wf_db_by_columns (d d' : db) :
  map id (tokens d') = map id (tokens d) ->
  map token (tokens d') = map token (tokens d) ->
  tokens_id_seq d' = tokens_id_seq d ->
  wf_db d -> wf_db d'.
Proof.
  intros Hid Htok Hseq (Hpk & Hu & Hn & Hah).
  unfold wf_db, pk_ok, token_unique. rewrite Hid, Htok.
  split; [assumption|]. split; [assumption|].
  split; [now apply (normalized_by_tokens (tokens d))|].
  unfold seq_ahead in *. rewrite Hseq.
  destruct (tokens_id_seq d) as [sq|]; [|trivial].
  intros r' Hin'.
  assert (H : In (id r') (map id (tokens d))).
  { rewrite <- Hid. now apply in_map. }
  apply in_map_iff in H. destruct H as (r & Hr & Hin).
  rewrite <- Hr. now apply Hah.
Qed.

Lemma nextIdentity_seq_ahead (d : db) :
  seq_ahead d ->
  seq_ahead (snd (nextIdentity d)) /\
  forall v r, fst (nextIdentity d) = Some v -> id r = v ->
    seq_ahead (mkDb (tokens d ++ [r]) (tokens_id_seq (snd (nextIdentity d)))).
Proof.
  intros Hah0. pose proof Hah0 as Hah. unfold seq_ahead in Hah.
  destruct (tokens_id_seq d) as [sq|] eqn:Hsq.
  2:{ unfold nextIdentity. rewrite Hsq. simpl.
      split; [unfold seq_ahead; now rewrite Hsq|discriminate]. }
  destruct (tokens d) as [|x t] eqn:Ht.
  - rewrite (nextIdentity_empty d sq Hsq Ht). simpl.
    split; [intros r []|].
    intros v r [= <-] Hr. unfold seq_ahead. simpl.
    intros r' [<-|[]]. rewrite next_value_called. lia.
  - assert (Hne : tokens d <> []) by (rewrite Ht; discriminate).
    rewrite (nextIdentity_nonempty d sq Hsq Hne).
    destruct (Sql.INT4_MAX <? next_value sq);
      [split; [exact Hah0|discriminate]|].
    simpl. split.
    + unfold seq_ahead. simpl. intros r Hr. rewrite next_value_called.
      rewrite Ht in Hr. specialize (Hah r Hr). lia.
    + intros v r [= <-] Hr. unfold seq_ahead. simpl.
      intros r' Hin. rewrite next_value_called.
      assert (Hx : 1 <= id x < next_value sq) by (apply Hah; now left).
      destruct Hin as [<-|Hin]; [lia|].
      apply in_app_or in Hin. destruct Hin as [Hin|[<-|[]]].
      * specialize (Hah r' (or_intror Hin)). lia.
      * lia.
Qed.

Lemma post_checkin_wf (now : Z) (b : checkin_body) (d : db) :
  wf_db d -> wf_db (snd (post_checkin now b d)).
Proof.
  intros Hwf. unfold post_checkin.
  destruct (negb (truthy (body_name b)) || negb (truthy (body_country b)));
    [assumption|].
  destruct (ageNumber b) as [a|]; [|assumption].
  destruct (a <? 0); [assumption|].
  pose proof (nextIdentity_tokens d) as Htok.
  destruct Hwf as (Hpk & Hu & Hn & Hah).
  destruct (nextIdentity_seq_ahead d Hah) as [Hah1 Hah2].
  destruct (nextIdentity d) as [[nextId|] d1]; simpl in *.
  2:{ repeat split; try assumption. unfold seq_ahead in *. simpl.
      now rewrite <- Htok. }
  assert (Hroll : wf_db (mkDb (tokens d) (tokens_id_seq d1))).
  { repeat split; try assumption. unfold seq_ahead in *. simpl.
    now rewrite <- Htok. }
  destruct (js_trim (body_name b)); [|assumption].
  destruct (js_trim (body_country b)); [|assumption].
  destruct (details_param (body_details b)); [|assumption].
  destruct (insert _ (tokens d1)) as [t'|] eqn:Hins; [|assumption].
  simpl. apply insert_spec in Hins. simpl in Hins.
  destruct Hins as (-> & Hfid & Hftok). rewrite Htok in *.
  unfold wf_db. simpl. split; [|split; [|split]].
  - unfold pk_ok. rewrite map_app. now apply NoDup_snoc.
  - unfold token_unique. rewrite map_app. now apply NoDup_snoc.
  - intros r Hin. apply in_app_or in Hin. destruct Hin as [Hin|[<-|[]]].
    + now apply Hn.
    + apply normalize_formatToken.
  - now apply (Hah2 nextId).
Qed.

Lemma handle_wf (now : Z) (q : request) (d : db) :
  wf_db d -> wf_db (snd (handle MAX_ALLOWED now q d)).
Proof.
  intros Hwf. destruct q as [b|tok|tok|b]; simpl.
  - now apply post_checkin_wf.
  - pose proof (post_admit_col id now tok (tokens d) id_set_done
                  id_set_allowed) as Hid.
    pose proof (post_admit_col token now tok (tokens d)
                  (fun _ _ => eq_refl) (fun _ _ => eq_refl)) as Htok.
    destruct (post_admit MAX_ALLOWED now tok (tokens d)) as [[? ?] ?].
    now apply (wf_db_by_columns d).
  - pose proof (post_remove_col id now tok (tokens d) id_set_done) as Hid.
    pose proof (post_remove_col token now tok (tokens d)
                  (fun _ _ => eq_refl)) as Htok.
    destruct (post_remove MAX_ALLOWED now tok (tokens d)) as [[? ?] ?].
    now apply (wf_db_by_columns d).
  - pose proof (post_next_col id now b (tokens d) id_set_done
                  id_set_allowed) as Hid.
    pose proof (post_next_col token now b (tokens d)
                  (fun _ _ => eq_refl) (fun _ _ => eq_refl)) as Htok.
    destruct (post_next MAX_ALLOWED now b (tokens d)) as [[? ?] ?].
    now apply (wf_db_by_columns d).
Qed.

(** Every store the service reaches from a well-formed one, in particular
    from the empty store, is well formed. *)
Lemma run_wf (qs : list (Z * request)) :
  forall d, wf_db d -> wf_db (run MAX_ALLOWED qs d).
Proof.
  induction qs as [|[now q] qs IH]; simpl; intros d Hwf; [assumption|].
  apply IH. now apply handle_wf.
Qed.

Lemma fresh_db_wf : wf_db fresh_db.
Proof.
  unfold wf_db, pk_ok, token_unique, normalized, seq_ahead. simpl.
  split; [constructor|]. split; [constructor|].
  split; intros r [].
Qed.

End WellFormed.

(** ** The batch takes the waiting rows in ascending [id] order *)

Lemma insert_by_id_sorted (x : row) (l : list row) :
  StronglySorted (fun a b => id a <= id b) l ->
  StronglySorted (fun a b => id a <= id b) (Sql.insert_by Sql.by_id x l).
Proof.
  induction 1 as [|y l Hl IH Hy]; simpl.
  - repeat constructor.
  - unfold Sql.by_id at 1. destruct (id x <=? id y) eqn:E.
    + apply Z.leb_le in E. constructor; [now constructor|].
      constructor; [assumption|].
      rewrite Forall_forall in *. intros z Hz. specialize (Hy z Hz). lia.
    + apply Z.leb_gt in E. constructor; [assumption|].
      rewrite Forall_forall in *. intros z Hz.
      apply (Permutation_in z (insert_by_perm Sql.by_id x l)) in Hz.
      destruct Hz as [<-|Hz]; [lia|auto].
Qed.

Lemma order_by_id_sorted (l : list row) :
  StronglySorted (fun a b => id a <= id b) (Sql.order_by Sql.by_id l).
Proof.
  induction l as [|x l IH]; simpl; [constructor|].
  now apply insert_by_id_sorted.
Qed.

Lemma firstn_sorted {A} (R : A -> A -> Prop) (n : nat) (l : list A) :
  StronglySorted R l -> StronglySorted R (firstn n l).
Proof.
  revert l. induction n as [|n IH]; intros l H; simpl; [constructor|].
  destruct l as [|x l]; [constructor|].
  inversion H as [|? ? Hl Hx]; subst. constructor; [auto|].
  rewrite Forall_forall in *. intros z Hz. apply Hx.
  now apply (In_firstn n).
Qed.

Lemma select_waiting_ascending (n : Z) (t : table) (ws : list row) :
  select_waiting n t = Some ws ->
  StronglySorted (fun a b => id a <= id b) ws.
Proof.
  unfold select_waiting, Sql.limit.
  destruct (Sql.INT8_MAX <? n); [discriminate|].
  destruct (n <? 0); [discriminate|]. intros [= <-].
  apply firstn_sorted, order_by_id_sorted.
Qed.

(** * Further properties of the code *)

(** ** Tokens and identities *)

Lemma to_int_proper (i : Z) :
  Z.to_int i <> Decimal.Pos Decimal.Nil /\
  Z.to_int i <> Decimal.Neg Decimal.Nil.
Proof.
  destruct i as [|p|p]; simpl; split; try discriminate;
    intros [= H]; now apply (DecimalPos.Unsigned.to_uint_nonnil p).
Qed.

Lemma formatToken_injective_aux (i j : Z) :
  formatToken i = formatToken j -> i = j.
Proof.
  unfold formatToken. intros [= H].
  apply DecimalZ.to_int_inj.
  destruct (to_int_proper i) as [Hi1 Hi2].
  destruct (to_int_proper j) as [Hj1 Hj2].
  pose proof (NilZero.isi (Z.to_int i) Hi1 Hi2) as Ei.
  pose proof (NilZero.isi (Z.to_int j) Hj1 Hj2) as Ej.
  rewrite H in Ei. rewrite Ei in Ej. now injection Ej.
Qed.

(** X1: [formatToken] never gives two identities the same token, so in a
    table whose tokens are all made by [formatToken] the primary key
    already makes the tokens unique. *)
Theorem formatToken_injective (i j : Z) (t : table) :
  (formatToken i = formatToken j -> i = j) /\
  (canonical t -> pk_ok t -> token_unique t).
Proof.
  split; [apply formatToken_injective_aux|].
  unfold pk_ok, token_unique. intros Hcan.
  induction t as [|x t IH]; simpl; intros Hnd; [constructor|].
  inversion Hnd as [|? ? Hx Hl]; subst. constructor.
  - intros Hin. apply Hx. apply in_map_iff in Hin.
    destruct Hin as (y & Hy & Hin).
    rewrite (Hcan x (or_introl eq_refl)) in Hy.
    rewrite (Hcan y (or_intror Hin)) in Hy.
    apply formatToken_injective_aux in Hy. rewrite <- Hy.
    now apply in_map.
  - apply IH; [|assumption]. intros r Hr. apply Hcan. now right.
Qed.

Lemma formatToken_injective_witness : token_unique two_allowed.
Proof.
  apply (formatToken_injective 0 0 two_allowed).
  - intros r [<-|[<-|[<-|[]]]]; reflexivity.
  - apply pk_okb_sound. reflexivity.
Defined.

(** ** Look-ups ignore padding and case *)

Lemma trimStart_blank (s : string) :
  blank s = true -> Str.trimStart s = EmptyString.
Proof.
  induction s as [|c s IH]; simpl; intros H; [reflexivity|].
  apply andb_true_iff in H. destruct H as [Hc Hs]. rewrite Hc. auto.
Qed.

Lemma trimEnd_blank (s : string) :
  blank s = true -> Str.trimEnd s = EmptyString.
Proof.
  induction s as [|c s IH]; simpl; intros H; [reflexivity|].
  apply andb_true_iff in H. destruct H as [Hc Hs].
  rewrite (IH Hs). now rewrite Hc.
Qed.

Lemma trimStart_padded (pre s : string) :
  blank pre = true ->
  Str.trimStart (String.append pre s) = Str.trimStart s.
Proof.
  induction pre as [|c pre IH]; simpl; intros H; [reflexivity|].
  apply andb_true_iff in H. destruct H as [Hc Hs]. rewrite Hc. auto.
Qed.

Lemma trimStart_then_blank (s post : string) :
  blank post = true ->
  Str.trimStart (String.append s post)
  = match Str.trimStart s with
    | EmptyString => EmptyString
    | r => String.append r post
    end.
Proof.
  intros Hp. induction s as [|c s IH]; simpl.
  - now apply trimStart_blank.
  - destruct (Str.is_space c); [exact IH|reflexivity].
Qed.

Lemma trimEnd_padded (s post : string) :
  blank post = true ->
  Str.trimEnd (String.append s post) = Str.trimEnd s.
Proof.
  intros Hp. induction s as [|c s IH]; simpl.
  - now apply trimEnd_blank.
  - now rewrite IH.
Qed.

Lemma trim_padded (pre s post : string) :
  blank pre = true -> blank post = true ->
  Str.trim (String.append pre (String.append s post)) = Str.trim s.
Proof.
  intros Hpre Hpost. unfold Str.trim.
  rewrite trimStart_padded by assumption.
  rewrite trimStart_then_blank by assumption.
  destruct (Str.trimStart s) as [|c r] eqn:E; [reflexivity|].
  now apply trimEnd_padded.
Qed.

Lemma is_space_lower (c : ascii) :
  Str.is_space (JsString.lower_char c) = Str.is_space c.
Proof.
  destruct c as [[] [] [] [] [] [] [] []]; reflexivity.
Qed.

Lemma upper_lower (c : ascii) :
  Str.upper_char (JsString.lower_char c) = Str.upper_char c.
Proof.
  destruct c as [[] [] [] [] [] [] [] []]; reflexivity.
Qed.

Lemma trimStart_lower (s : string) :
  Str.trimStart (JsString.toLowerCase s)
  = JsString.toLowerCase (Str.trimStart s).
Proof.
  induction s as [|c s IH]; simpl; [reflexivity|].
  rewrite is_space_lower. now destruct (Str.is_space c).
Qed.

Lemma trimEnd_lower (s : string) :
  Str.trimEnd (JsString.toLowerCase s)
  = JsString.toLowerCase (Str.trimEnd s).
Proof.
  induction s as [|c s IH]; simpl; [reflexivity|].
  rewrite IH, is_space_lower.
  destruct (Str.trimEnd s); simpl; [|reflexivity].
  now destruct (Str.is_space c).
Qed.

Lemma toUpperCase_lower (s : string) :
  Str.toUpperCase (JsString.toLowerCase s) = Str.toUpperCase s.
Proof.
  induction s as [|c s IH]; simpl; [reflexivity|].
  now rewrite IH, upper_lower.
Qed.

Lemma normalize_lower (s : string) :
  normalize (JsString.toLowerCase s) = normalize s.
Proof.
  unfold normalize, Str.trim.
  now rewrite trimStart_lower, trimEnd_lower, toUpperCase_lower.
Qed.

Lemma normalize_padded (pre s post : string) :
  blank pre = true -> blank post = true ->
  normalize (String.append pre (String.append s post)) = normalize s.
Proof. intros H1 H2. unfold normalize. now rewrite trim_padded. Qed.

(** X2: a token may be typed in lower case and with white space around
    it: promotion and removal then do exactly what they do for the token
    as [formatToken] prints it. *)
Theorem lookup_ignores_padding_and_case (MAX_ALLOWED now i : Z)
    (pre post : string) (t : table) :
  blank pre = true -> blank post = true ->
  let typed :=
    String.append pre
      (String.append (JsString.toLowerCase (formatToken i)) post) in
  normalize typed = formatToken i /\
  setPatientAllowed MAX_ALLOWED now t typed
  = setPatientAllowed MAX_ALLOWED now t (formatToken i) /\
  post_admit MAX_ALLOWED now typed t
  = post_admit MAX_ALLOWED now (formatToken i) t /\
  post_remove MAX_ALLOWED now typed t
  = post_remove MAX_ALLOWED now (formatToken i) t.
Proof.
  intros Hpre Hpost typed.
  assert (Hn : normalize typed = normalize (formatToken i)).
  { unfold typed. rewrite normalize_padded by assumption.
    apply normalize_lower. }
  split; [now rewrite Hn, normalize_formatToken|].
  assert (Hs : setPatientAllowed MAX_ALLOWED now t typed
               = setPatientAllowed MAX_ALLOWED now t (formatToken i)).
  { unfold setPatientAllowed. now rewrite Hn. }
  split; [exact Hs|]. split.
  - unfold post_admit. now rewrite Hs.
  - unfold post_remove. now rewrite Hn.
Qed.

Lemma lookup_ignores_padding_and_case_witness :
  normalize "  t2 " = formatToken 2 /\
  post_remove 2 100 "  t2 " two_allowed
  = post_remove 2 100 (formatToken 2) two_allowed.
Proof.
  destruct (lookup_ignores_padding_and_case 2 100 2 "  " " " two_allowed
              eq_refl eq_refl) as (H1 & _ & _ & H4).
  split; [exact H1|exact H4].
Defined.

(** ** Rows only move forward *)

Lemma evolves_refl (r : row) : evolves r r.
Proof. unfold evolves. repeat split; auto; lia. Qed.

Lemma rank_waiting (s : Status) : rank s <= 0 -> s = Waiting.
Proof. destruct s; simpl; intros H; [reflexivity|lia|lia]. Qed.

Lemma rank_done (s : Status) : 2 <= rank s -> s = Done.
Proof. destruct s; simpl; intros H; [lia|lia|reflexivity]. Qed.

Lemma evolves_trans (a b c : row) : evolves a b -> evolves b c -> evolves a c.
Proof.
  unfold evolves.
  intros (A1 & A2 & A3 & A4 & A5 & A6 & A7 & A8 & A9 & A10 & A11)
         (B1 & B2 & B3 & B4 & B5 & B6 & B7 & B8 & B9 & B10 & B11).
  assert (Hbw : status c = Waiting -> status b = Waiting).
  { intros H. apply rank_waiting. rewrite H in B8. exact B8. }
  assert (Hbd : status c <> Done -> status b <> Done).
  { intros H Hb. apply H. apply rank_done. rewrite Hb in B8. exact B8. }
  assert (Hab : status a <> Waiting -> status b <> Waiting).
  { intros H Hb. apply H. apply rank_waiting. rewrite Hb in A8. exact A8. }
  repeat split; try congruence; try lia.
  - intros H. rewrite (B9 (Hab H)). auto.
  - intros H. rewrite (B10 H). auto.
  - intros H. rewrite (B11 H). auto.
Qed.

Lemma evolves_set_done (now : Z) (r : row) : evolves r (set_done now r).
Proof.
  unfold evolves. simpl. repeat split; auto; try congruence.
  destruct (status r); simpl; lia.
Qed.

Lemma evolves_set_allowed (now : Z) (r : row) :
  status r = Waiting -> evolves r (set_allowed now r).
Proof.
  intros H. unfold evolves. simpl. rewrite H. simpl.
  repeat split; auto; try congruence; lia.
Qed.

Lemma rows_evolve_map (g : row -> row) (t : table) :
  (forall r, In r t -> evolves r (g r)) -> Forall2 evolves t (map g t).
Proof.
  induction t as [|x t IH]; simpl; intros H; constructor; auto.
Qed.

Lemma rows_evolve_refl (t : table) : Forall2 evolves t t.
Proof. induction t; constructor; auto using evolves_refl. Qed.

Lemma rows_evolve_trans (t u v : table) :
  Forall2 evolves t u -> Forall2 evolves u v -> Forall2 evolves t v.
Proof.
  intros H. revert v. induction H as [|a b t u Hab Htu IH]; intros v Huv.
  - inversion Huv. constructor.
  - inversion Huv as [|? c ? v' Hbc Huv']; subst.
    constructor; [now apply (evolves_trans a b c)|auto].
Qed.

Section Forward.

Variable MAX_ALLOWED : Z.

Lemma setPatientAllowed_pk (now : Z) (tok : string) (t : table) :
  pk_ok t -> pk_ok (snd (setPatientAllowed MAX_ALLOWED now t tok)).
Proof.
  unfold pk_ok.
  now rewrite (setPatientAllowed_col Z id id_set_done id_set_allowed).
Qed.

Lemma setPatientAllowed_evolves (now : Z) (tok : string) (t : table) :
  pk_ok t ->
  Forall2 evolves t (snd (setPatientAllowed MAX_ALLOWED now t tok)).
Proof.
  intros Hpk.
  destruct (filter (has_token (normalize tok)) t) as [|p rest] eqn:Hf.
  { unfold setPatientAllowed. rewrite Hf. apply rows_evolve_refl. }
  destruct (status p) eqn:Hst.
  2,3: unfold setPatientAllowed; rewrite Hf, Hst; apply rows_evolve_refl.
  rewrite (setPatientAllowed_waiting MAX_ALLOWED now t tok p rest)
    by assumption.
  simpl. unfold promoted_table.
  destruct (filter_head_in _ _ _ _ Hf) as [Hin _].
  apply (rows_evolve_trans t (evicted now (victim_of MAX_ALLOWED t) t)).
  - destruct (victim_of MAX_ALLOWED t) as [o|]; simpl;
      [|apply rows_evolve_refl].
    apply rows_evolve_map. intros r _. unfold rewrite_id.
    destruct (has_id (id o) r);
      [apply evolves_set_done|apply evolves_refl].
  - apply rows_evolve_map. intros r Hr. unfold rewrite_id.
    destruct (has_id (id p) r) eqn:E; [|apply evolves_refl].
    apply has_id_true in E. apply evolves_set_allowed.
    assert (Hp : In p (evicted now (victim_of MAX_ALLOWED t) t)).
    { apply in_evicted_unchanged; try assumption; [congruence|].
      apply victim_of_in. }
    rewrite (same_id_same_row _ r p (pk_evicted now _ t Hpk) Hr Hp E).
    assumption.
Qed.

Lemma promote_rows_evolves (now : Z) (rows : list string) :
  forall t promoted finished t' promoted' finished',
  pk_ok t ->
  promote_rows MAX_ALLOWED now rows t promoted finished
  = Some (t', promoted', finished') ->
  Forall2 evolves t t'.
Proof.
  induction rows as [|tok rows IH]; simpl;
    intros t promoted finished t' promoted' finished' Hpk Hrun.
  - injection Hrun as <- _ _. apply rows_evolve_refl.
  - pose proof (setPatientAllowed_evolves now tok t Hpk) as Hstep.
    pose proof (setPatientAllowed_pk now tok t Hpk) as Hpk1.
    destruct (setPatientAllowed MAX_ALLOWED now t tok) as [[|pt fin] t1];
      [discriminate|].
    simpl in *. apply (rows_evolve_trans t t1); [assumption|].
    eapply IH; eassumption.
Qed.

Lemma table_handlers_evolve (now : Z) (t : table) :
  pk_ok t ->
  (forall tok, Forall2 evolves t (snd (post_admit MAX_ALLOWED now tok t))) /\
  (forall tok, Forall2 evolves t (snd (post_remove MAX_ALLOWED now tok t))) /\
  (forall b, Forall2 evolves t (snd (post_next MAX_ALLOWED now b t))).
Proof.
  intros Hpk. split; [|split].
  - intros tok. unfold post_admit.
    pose proof (setPatientAllowed_evolves now tok t Hpk) as Hstep.
    destruct (setPatientAllowed MAX_ALLOWED now t tok) as [[|pt fin] t1];
      [apply rows_evolve_refl|].
    destruct (getAllowedPatients MAX_ALLOWED t1);
      [exact Hstep|apply rows_evolve_refl].
  - intros tok. unfold post_remove.
    destruct (filter (has_token (normalize tok)) t);
      [apply rows_evolve_refl|].
    simpl. destruct (getAllowedPatients MAX_ALLOWED _);
      [|apply rows_evolve_refl].
    simpl. apply rows_evolve_map. intros x _.
    destruct (has_token (normalize tok) x);
      [apply evolves_set_done|apply evolves_refl].
  - intros b. unfold post_next.
    destruct (requested b <=? 0); [apply rows_evolve_refl|].
    destruct (select_waiting (requested b) t) as [[|w ws]|];
      try apply rows_evolve_refl.
    destruct (promote_rows MAX_ALLOWED now (map token (w :: ws)) t [] [])
      as [[[t1 promoted] finished]|] eqn:Hrun; [|apply rows_evolve_refl].
    destruct (getAllowedPatients MAX_ALLOWED t1); [|apply rows_evolve_refl].
    simpl. eapply promote_rows_evolves; eassumption.
Qed.

Lemma post_checkin_appends (now : Z) (b : checkin_body) (d : db) :
  tokens (snd (post_checkin now b d)) = tokens d \/
  exists r,
    tokens (snd (post_checkin now b d)) = tokens d ++ [r] /\
    ~ In (id r) (map id (tokens d)) /\ status r = Waiting.
Proof.
  unfold post_checkin.
  destruct (negb (truthy (body_name b)) || negb (truthy (body_country b)));
    [now left|].
  destruct (ageNumber b) as [a|]; [|now left].
  destruct (a <? 0); [now left|].
  pose proof (nextIdentity_tokens d) as Htok.
  destruct (nextIdentity d) as [[nextId|] d1]; [|now left].
  simpl in Htok.
  destruct (js_trim (body_name b)); [|now left].
  destruct (js_trim (body_country b)); [|now left].
  destruct (details_param (body_details b)); [|now left].
  destruct (insert _ (tokens d1)) as [t'|] eqn:Hins; [|now left].
  apply insert_spec in Hins. destruct Hins as (-> & Hfresh & _).
  rewrite Htok in *. right. eexists. simpl. split; [reflexivity|].
  split; [exact Hfresh|reflexivity].
Qed.

Lemma handle_appends (now : Z) (q : request) (d : db) :
  pk_ok (tokens d) ->
  pk_ok (tokens (snd (handle MAX_ALLOWED now q d))) /\
  exists old added,
    tokens (snd (handle MAX_ALLOWED now q d)) = old ++ added /\
    Forall2 evolves (tokens d) old.
Proof.
  intros Hpk.
  destruct (table_handlers_evolve now (tokens d) Hpk) as (Ha & Hr & Hn).
  destruct q as [b|tok|tok|b]; simpl.
  - destruct (post_checkin_appends now b d) as [E|(r & E & Hfresh & _)];
      rewrite E.
    + split; [assumption|]. exists (tokens d), [].
      rewrite app_nil_r. split; [reflexivity|apply rows_evolve_refl].
    + split.
      * unfold pk_ok in *. rewrite map_app. now apply NoDup_snoc.
      * exists (tokens d), [r]. split; [reflexivity|apply rows_evolve_refl].
  - pose proof (post_admit_col MAX_ALLOWED id now tok (tokens d) id_set_done
                  id_set_allowed) as Hid.
    specialize (Ha tok).
    destruct (post_admit MAX_ALLOWED now tok (tokens d)) as [[? ?] t'].
    simpl in *. split; [unfold pk_ok in *; now rewrite Hid|].
    exists t', []. rewrite app_nil_r. now split.
  - pose proof (post_remove_col MAX_ALLOWED id now tok (tokens d)
                  id_set_done) as Hid.
    specialize (Hr tok).
    destruct (post_remove MAX_ALLOWED now tok (tokens d)) as [[? ?] t'].
    simpl in *. split; [unfold pk_ok in *; now rewrite Hid|].
    exists t', []. rewrite app_nil_r. now split.
  - pose proof (post_next_col MAX_ALLOWED id now b (tokens d) id_set_done
                  id_set_allowed) as Hid.
    specialize (Hn b).
    destruct (post_next MAX_ALLOWED now b (tokens d)) as [[? ?] t'].
    simpl in *. split; [unfold pk_ok in *; now rewrite Hid|].
    exists t', []. rewrite app_nil_r. now split.
Qed.

(** X3: whatever requests are served, no row is ever deleted or
    reordered and rows only move forward: the table afterwards is the old
    rows, each evolved in place (same [id], token and patient data; status
    waiting, then allowed, then done, never back; [admitted_at] written
    only on leaving [Waiting], [finished_at] only on rows that end
    [Done]), followed by the rows checked in since. *)
Theorem run_rows_only_move_forward (qs : list (Z * request)) :
  forall d, pk_ok (tokens d) ->
  exists old added,
    tokens (run MAX_ALLOWED qs d) = old ++ added /\
    Forall2 evolves (tokens d) old.
Proof.
  induction qs as [|[now q] qs IH]; simpl; intros d Hpk.
  - exists (tokens d), []. rewrite app_nil_r.
    split; [reflexivity|apply rows_evolve_refl].
  - destruct (handle_appends now q d Hpk)
      as (Hpk1 & old1 & added1 & E1 & H1).
    destruct (IH _ Hpk1) as (old2 & added2 & E2 & H2).
    rewrite E1 in H2. apply Forall2_app_inv_l in H2.
    destruct H2 as (o2 & a2 & Ho & Ha & ->).
    exists o2, (a2 ++ added2). split.
    + rewrite E2. now rewrite app_assoc.
    + now apply (rows_evolve_trans _ old1).
Qed.

End Forward.

Lemma run_rows_only_move_forward_witness :
  exists old added,
    tokens (run 2 [(100, Admit "T3"); (110, Remove "T1")]
              (mkDb two_allowed None))
    = old ++ added /\
    Forall2 evolves two_allowed old.
Proof.
  apply (run_rows_only_move_forward 2
           [(100, Admit "T3"); (110, Remove "T1")]
           (mkDb two_allowed None)).
  apply pk_okb_sound. reflexivity.
Defined.

(** ** Check-in *)

(** X4: [/api/checkin] answers 400 exactly when [name] or [country] is
    falsy or the age is not a number or is negative; it then emits
    nothing and leaves the table and the sequence untouched, so no
    identity is consumed. *)
Theorem post_checkin_bad_request_iff (now : Z) (b : checkin_body) (d : db) :
  (fst (fst (post_checkin now b d)) = BadRequest <->
   truthy (body_name b) = false \/ truthy (body_country b) = false \/
   ageNumber b = None \/ exists a, ageNumber b = Some a /\ a < 0) /\
  (fst (fst (post_checkin now b d)) = BadRequest ->
   post_checkin now b d = (BadRequest, [], d)).
Proof.
  unfold post_checkin.
  destruct (truthy (body_name b)) eqn:En; simpl.
  2:{ split; [split; auto|auto]. }
  destruct (truthy (body_country b)) eqn:Ec; simpl.
  2:{ split; [split; auto|auto]. }
  destruct (ageNumber b) as [a|] eqn:Ea.
  2:{ split; [split; auto|auto]. }
  destruct (a <? 0) eqn:El.
  { apply Z.ltb_lt in El. split; [split; [|auto]|auto].
    intros _. right. right. right. now exists a. }
  apply Z.ltb_ge in El.
  assert (Hno : ~ (true = false \/ true = false \/ Some a = None \/
                   exists a0, Some a = Some a0 /\ a0 < 0)).
  { intros [H|[H|[H|(a0 & [= <-] & H)]]]; try discriminate. lia. }
  destruct (nextIdentity d) as [[nextId|] d1].
  2:{ simpl. split; [split; [discriminate|tauto]|discriminate]. }
  destruct (js_trim (body_name b)), (js_trim (body_country b)),
    (details_param (body_details b));
    try (simpl; split; [split; [discriminate|tauto]|discriminate]).
  destruct (insert _ (tokens d1));
    simpl; (split; [split; [discriminate|tauto]|discriminate]).
Qed.

Lemma nextIdentity_above (d : db) (v : Z) :
  seq_ahead d -> fst (nextIdentity d) = Some v ->
  forall x, In x (tokens d) -> id x < v.
Proof.
  unfold seq_ahead.
  destruct (tokens_id_seq d) as [sq|] eqn:Hsq;
    [|unfold nextIdentity; rewrite Hsq; discriminate].
  intros Hah. destruct (tokens d) as [|y t] eqn:Ht.
  - intros _ x [].
  - assert (Hne : tokens d <> []) by (rewrite Ht; discriminate).
    rewrite (nextIdentity_nonempty d sq Hsq Hne).
    destruct (Sql.INT4_MAX <? next_value sq); [discriminate|]. simpl.
    intros [= <-] x Hx. now apply Hah.
Qed.











(** ** The active list *)

Lemma not_done_true (r : row) : not_done r = true <-> status r <> Done.
Proof.
  unfold not_done. destruct (status r); simpl; split; congruence.
Qed.

Lemma in_get_patients (t : table) (r : row) :
  In r (get_patients t) <-> In r t /\ status r <> Done.
Proof.
  unfold get_patients.
  pose proof (order_by_perm Sql.by_id (filter not_done t)) as Hperm.
  split.
  - intros H. apply (Permutation_in r Hperm) in H.
    apply filter_In in H. destruct H as [Hin Hnd].
    split; [assumption|now apply not_done_true].
  - intros [Hin Hnd].
    apply (Permutation_in r (Permutation_sym Hperm)).
    apply filter_In. split; [assumption|now apply not_done_true].
Qed.

(** X7: [/api/patients] returns every row that is not done exactly once,
    and no done row, in ascending [id] order. *)
Theorem get_patients_lists_active (t : table) :
  Permutation (get_patients t) (filter not_done t) /\
  StronglySorted (fun a b => id a <= id b) (get_patients t) /\
  (forall r, In r (get_patients t) <-> In r t /\ status r <> Done).
Proof.
  split; [apply order_by_perm|].
  split; [apply order_by_id_sorted|].
  intros r. apply in_get_patients.
Qed.

Lemma ascending_snoc (l : list Z) (v : Z) :
  StronglySorted Z.lt l -> (forall x, In x l -> x < v) ->
  StronglySorted Z.lt (l ++ [v]).
Proof.
  induction 1 as [|y l Hl IH Hy]; simpl; intros Hv.
  - repeat constructor.
  - constructor; [apply IH; intros x Hx; apply Hv; now right|].
    rewrite Forall_forall in *. intros z Hz.
    apply in_app_or in Hz. destruct Hz as [Hz|[<-|[]]]; [auto|].
    apply Hv. now left.
Qed.

Lemma ascending_filter (p : row -> bool) (t : table) :
  StronglySorted Z.lt (map id t) ->
  StronglySorted Z.lt (map id (filter p t)).
Proof.
  induction t as [|x t IH]; simpl; intros H; [constructor|].
  inversion H as [|? ? Hl Hx]; subst.
  destruct (p x); simpl; [|auto]. constructor; [auto|].
  rewrite Forall_forall in *. intros z Hz. apply Hx.
  apply in_map_iff in Hz. destruct Hz as (y & <- & Hy).
  apply filter_In in Hy. apply in_map. tauto.
Qed.

Lemma order_by_id_ascending (t : table) :
  StronglySorted Z.lt (map id t) -> Sql.order_by Sql.by_id t = t.
Proof.
  induction t as [|x t IH]; simpl; intros H; [reflexivity|].
  inversion H as [|? ? Hl Hx]; subst. rewrite (IH Hl).
  destruct t as [|y t]; simpl; [reflexivity|].
  unfold Sql.by_id. rewrite Forall_forall in Hx.
  replace (id x <=? id y) with true; [reflexivity|].
  symmetry. apply Z.leb_le. specialize (Hx (id y) (or_introl eq_refl)). lia.
Qed.

Lemma post_checkin_row (now : Z) (b : checkin_body) (d : db) :
  tokens (snd (post_checkin now b d)) = tokens d \/
  exists r,
    tokens (snd (post_checkin now b d)) = tokens d ++ [r] /\
    fst (nextIdentity d) = Some (id r) /\
    token r = formatToken (id r).
Proof.
  unfold post_checkin.
  destruct (negb (truthy (body_name b)) || negb (truthy (body_country b)));
    [now left|].
  destruct (ageNumber b) as [a|]; [|now left].
  destruct (a <? 0); [now left|].
  pose proof (nextIdentity_tokens d) as Htok.
  destruct (nextIdentity d) as [[nextId|] d1]; [|now left].
  simpl in Htok.
  destruct (js_trim (body_name b)); [|now left].
  destruct (js_trim (body_country b)); [|now left].
  destruct (details_param (body_details b)); [|now left].
  destruct (insert _ (tokens d1)) as [t'|] eqn:Hins; [|now left].
  apply insert_spec in Hins. destruct Hins as (-> & _ & _).
  rewrite Htok. right. eexists. simpl. split; [reflexivity|].
  split; reflexivity.
Qed.

Section CheckinOrder.

Variable MAX_ALLOWED : Z.

Lemma handle_ids (now : Z) (q : request) (d : db) :
  map id (tokens (snd (handle MAX_ALLOWED now q d))) = map id (tokens d) \/
  exists v,
    fst (nextIdentity d) = Some v /\
    map id (tokens (snd (handle MAX_ALLOWED now q d)))
    = map id (tokens d) ++ [v].
Proof.
  destruct q as [b|tok|tok|b]; simpl.
  - destruct (post_checkin_row now b d) as [E|(r & E & Hv & _)]; rewrite E.
    + now left.
    + right. exists (id r). split; [assumption|]. now rewrite map_app.
  - left.
    pose proof (post_admit_col MAX_ALLOWED id now tok (tokens d) id_set_done
                  id_set_allowed) as Hid.
    destruct (post_admit MAX_ALLOWED now tok (tokens d)) as [[? ?] t'].
    exact Hid.
  - left.
    pose proof (post_remove_col MAX_ALLOWED id now tok (tokens d)
                  id_set_done) as Hid.
    destruct (post_remove MAX_ALLOWED now tok (tokens d)) as [[? ?] t'].
    exact Hid.
  - left.
    pose proof (post_next_col MAX_ALLOWED id now b (tokens d) id_set_done
                  id_set_allowed) as Hid.
    destruct (post_next MAX_ALLOWED now b (tokens d)) as [[? ?] t'].
    exact Hid.
Qed.

Lemma run_ascending (qs : list (Z * request)) :
  forall d, wf_db d -> StronglySorted Z.lt (map id (tokens d)) ->
  StronglySorted Z.lt (map id (tokens (run MAX_ALLOWED qs d))).
Proof.
  induction qs as [|[now q] qs IH]; simpl; intros d Hwf Hs; [assumption|].
  apply IH; [now apply handle_wf|].
  destruct (handle_ids now q d) as [E|(v & Hv & E)]; rewrite E;
    [assumption|].
  apply ascending_snoc; [assumption|].
  intros x Hx. apply in_map_iff in Hx. destruct Hx as (r & <- & Hr).
  destruct Hwf as (_ & _ & _ & Hah).
  now apply (nextIdentity_above d v).
Qed.

(** X8: in every store reached from a well-formed one whose rows are
    stored in ascending [id] order (the empty store is one), the rows
    still are, so [/api/patients] lists the patients that are not done in
    the order they checked in. *)
Theorem patients_listed_in_checkin_order (qs : list (Z * request))
    (d : db) :
  wf_db d -> StronglySorted Z.lt (map id (tokens d)) ->
  StronglySorted Z.lt (map id (tokens (run MAX_ALLOWED qs d))) /\
  get_patients (tokens (run MAX_ALLOWED qs d))
  = filter not_done (tokens (run MAX_ALLOWED qs d)).
Proof.
  intros Hwf Hs.
  pose proof (run_ascending qs d Hwf Hs) as H.
  split; [exact H|].
  unfold get_patients. apply order_by_id_ascending.
  now apply ascending_filter.
Qed.

End CheckinOrder.

Lemma patients_listed_in_checkin_order_witness :
  get_patients
    (tokens (run 2 [(100, Checkin good_body); (110, Checkin good_body);
                    (120, Admit "T1"); (130, Remove "T1")] fresh_db))
  = filter not_done
      (tokens (run 2 [(100, Checkin good_body); (110, Checkin good_body);
                      (120, Admit "T1"); (130, Remove "T1")] fresh_db)).
Proof.
  apply (patients_listed_in_checkin_order 2
           [(100, Checkin good_body); (110, Checkin good_body);
            (120, Admit "T1"); (130, Remove "T1")] fresh_db).
  - apply fresh_db_wf.
  - constructor.
Defined.

(** ** The allowed snapshot *)

Section SortedOrderBy.

Variable le : row -> row -> bool.
Hypothesis le_total : forall a b, le a b = true \/ le b a = true.
Hypothesis le_trans :
  forall a b c, le a b = true -> le b c = true -> le a c = true.

Lemma insert_by_sorted (x : row) (l : list row) :
  StronglySorted (fun a b => le a b = true) l ->
  StronglySorted (fun a b => le a b = true) (Sql.insert_by le x l).
Proof.
  induction 1 as [|y l Hl IH Hy]; simpl.
  - repeat constructor.
  - destruct (le x y) eqn:E.
    + constructor; [now constructor|].
      constructor; [assumption|].
      rewrite Forall_forall in *. intros z Hz.
      apply le_trans with y; auto.
    + constructor; [assumption|].
      rewrite Forall_forall in *. intros z Hz.
      apply (Permutation_in z (insert_by_perm le x l)) in Hz.
      destruct Hz as [<-|Hz]; [|auto].
      destruct (le_total x y); congruence.
Qed.

Lemma order_by_sorted (l : list row) :
  StronglySorted (fun a b => le a b = true) (Sql.order_by le l).
Proof.
  induction l as [|x l IH]; simpl; [constructor|].
  now apply insert_by_sorted.
Qed.

End SortedOrderBy.

Section Snapshots.

Variable MAX_ALLOWED : Z.

(** X9: [getAllowedPatients] fails when [MAX_ALLOWED] is negative;
    whenever it returns rows, they are [min MAX_ALLOWED c] rows, [c]
    being the number of allowed rows, all of them allowed rows of the
    table, oldest admission first; and when the table holds at most
    [MAX_ALLOWED] allowed rows they are every one of them. *)
Theorem getAllowedPatients_spec (t : table) :
  (MAX_ALLOWED < 0 -> getAllowedPatients MAX_ALLOWED t = None) /\
  (forall l, getAllowedPatients MAX_ALLOWED t = Some l ->
     Z.of_nat (List.length l) = Z.min MAX_ALLOWED (Sql.count_allowed t) /\
     (forall r, In r l -> In r t /\ status r = Allowed) /\
     StronglySorted (fun a b => Sql.by_admitted_at_id a b = true) l /\
     (Sql.count_allowed t <= MAX_ALLOWED ->
      Permutation l (filter is_allowed t))).
Proof.
  unfold getAllowedPatients, Sql.limit.
  pose proof (order_by_perm Sql.by_admitted_at_id (filter is_allowed t))
    as Hperm.
  destruct (MAX_ALLOWED <? 0) eqn:E.
  { apply Z.ltb_lt in E. split; [tauto|discriminate]. }
  apply Z.ltb_ge in E. split; [lia|].
  intros l [= <-]. split; [|split; [|split]].
  - rewrite length_firstn, (Permutation_length Hperm).
    unfold Sql.count_allowed. lia.
  - intros r Hr. apply In_firstn in Hr.
    apply (Permutation_in r Hperm) in Hr. apply filter_In in Hr.
    destruct Hr as [Hin Ha]. split; [assumption|now apply is_allowed_true].
  - apply firstn_sorted.
    apply order_by_sorted;
      [apply by_admitted_at_id_total|apply by_admitted_at_id_trans].
  - intros Hc. rewrite firstn_all2; [exact Hperm|].
    rewrite (Permutation_length Hperm).
    unfold Sql.count_allowed in Hc. lia.
Qed.


Lemma snapshot_rows (t : table) (allowed : list row) :
  getAllowedPatients MAX_ALLOWED t = Some allowed ->
  forall r, In r allowed -> In r t /\ status r = Allowed.
Proof.
  unfold getAllowedPatients, Sql.limit.
  destruct (MAX_ALLOWED <? 0); [discriminate|]. intros [= <-] r Hr.
  apply In_firstn in Hr.
  apply (Permutation_in r (order_by_perm _ _)) in Hr.
  apply filter_In in Hr. destruct Hr as [Hin Ha].
  split; [assumption|now apply is_allowed_true].
Qed.


End Snapshots.


(** ** A promotion and what is listed afterwards *)

Lemma finished_tokens_of (fin : list string) (allowed : list row) :
  finished_tokens (map PatientFinished fin ++ [AllowedUpdate allowed]) = fin.
Proof. induction fin as [|k fin IH]; simpl; [reflexivity|now rewrite IH]. Qed.

Section PromotionListed.

Variable MAX_ALLOWED : Z.


End PromotionListed.


(** ** Counts of a batch *)

Section BatchCounts.

Variable MAX_ALLOWED : Z.

Lemma makeRoomFor_1_short (now : Z) (t : table) :
  (List.length (snd (makeRoomFor MAX_ALLOWED now t 1)) <= 1)%nat.
Proof.
  simpl. destruct (Sql.count_allowed t <? MAX_ALLOWED); [simpl; lia|].
  destruct (evict_oldest now t) as [t' [|k ks]]; simpl; lia.
Qed.

Lemma setPatientAllowed_shape (now : Z) (tok : string) (t : table) :
  fst (setPatientAllowed MAX_ALLOWED now t tok) = NotFound \/
  exists p fin,
    fst (setPatientAllowed MAX_ALLOWED now t tok) = Promoted (Some p) fin /\
    (List.length fin <= 1)%nat.
Proof.
  unfold setPatientAllowed.
  destruct (filter (has_token (normalize tok)) t) as [|p rest] eqn:Hf;
    [now left|].
  destruct (status p); [|right; exists p, []; simpl; split; [reflexivity|lia]
                        |now left].
  right.
  pose proof (makeRoomFor_1_short now t) as Hlen.
  pose proof (makeRoomFor_col Z id id_set_done MAX_ALLOWED now 1 t) as Hids.
  destruct (makeRoomFor MAX_ALLOWED now t 1) as [t1 fin]. simpl in Hlen, Hids.
  rewrite update_by_id.
  destruct (filter_head_in _ _ _ _ Hf) as [Hin _].
  assert (Hex : In (id p) (map id t1)).
  { rewrite Hids. now apply in_map. }
  apply in_map_iff in Hex. destruct Hex as (x & Hx & Hxin).
  assert (Hne : In x (filter (has_id (id p)) t1)).
  { apply filter_In. split; [assumption|now apply has_id_true]. }
  destruct (filter (has_id (id p)) t1) as [|y ys]; [destruct Hne|].
  exists (set_allowed now y), fin. simpl. now split.
Qed.

Lemma promote_rows_counts (now : Z) (rows : list string) :
  forall t promoted finished t' promoted' finished',
  promote_rows MAX_ALLOWED now rows t promoted finished
  = Some (t', promoted', finished') ->
  List.length promoted' = (List.length promoted + List.length rows)%nat /\
  (List.length finished' <= List.length finished + List.length rows)%nat.
Proof.
  induction rows as [|tok rows IH]; simpl;
    intros t promoted finished t' promoted' finished' Hrun.
  - injection Hrun as _ <- <-. lia.
  - destruct (setPatientAllowed_shape now tok t) as [H|(p & fin & H & Hlen)];
      destruct (setPatientAllowed MAX_ALLOWED now t tok) as [pr t1];
      simpl in H; subst pr; [discriminate|].
    apply IH in Hrun. rewrite !length_app in Hrun. simpl in Hrun. lia.
Qed.

(** X12: whenever [/api/next] answers with a promoted count, that count
    is [min n k] for the batch size [n] and the [k] waiting rows, hence at
    most [n]; the table it leaves has its rows evolved in place
    (same ids), and the [patient-finished] events it emits are at most as
    many as the rows it promoted. *)
Theorem batch_counts (now : Z) (b : next_body) (t t' : table)
    (admitted : nat) (evs : list event) :
  post_next MAX_ALLOWED now b t = (NextOk admitted, evs, t') ->
  Z.of_nat admitted
  = Z.min (requested b) (Z.of_nat (List.length (filter is_waiting t))) /\
  1 <= Z.of_nat admitted <= requested b /\
  (List.length (finished_tokens evs) <= admitted)%nat /\
  map id t' = map id t.
Proof.
  unfold post_next.
  destruct (requested b <=? 0) eqn:E; [discriminate|].
  apply Z.leb_gt in E.
  unfold select_waiting, Sql.limit.
  destruct (Sql.INT8_MAX <? requested b); [discriminate|].
  replace (requested b <? 0) with false by (symmetry; apply Z.ltb_ge; lia).
  pose proof (order_by_perm Sql.by_id (filter is_waiting t)) as Hperm.
  pose proof (length_firstn (Z.to_nat (requested b))
                (Sql.order_by Sql.by_id (filter is_waiting t))) as Hlen.
  rewrite (Permutation_length Hperm) in Hlen.
  destruct (firstn (Z.to_nat (requested b))
              (Sql.order_by Sql.by_id (filter is_waiting t)))
    as [|w ws] eqn:Hsel; [discriminate|].
  destruct (promote_rows MAX_ALLOWED now (map token (w :: ws)) t [] [])
    as [[[t1 promoted] finished]|] eqn:Hrun; [|discriminate].
  destruct (getAllowedPatients MAX_ALLOWED t1) as [allowed|];
    [|discriminate].
  intros [= <- <- <-].
  pose proof (promote_rows_col Z id id_set_done id_set_allowed MAX_ALLOWED
                now _ _ _ _ _ _ _ Hrun) as Hids.
  apply promote_rows_counts in Hrun. rewrite length_map in Hrun.
  simpl List.length in *. rewrite finished_tokens_of.
  destruct Hrun as [Hp Hf]. rewrite Hp.
  split; [lia|]. split; [lia|]. split; [lia|exact Hids].
Qed.

End BatchCounts.

Lemma batch_counts_witness :
  Z.of_nat 1
  = Z.min 4 (Z.of_nat (List.length (filter is_waiting two_allowed))).
Proof.
  apply (batch_counts 2 100 (mkNext (JNum 4) JUndefined) two_allowed
           (snd (post_next 2 100 (mkNext (JNum 4) JUndefined) two_allowed))
           1
           (snd (fst (post_next 2 100 (mkNext (JNum 4) JUndefined)
                        two_allowed)))).
  reflexivity.
Defined.

(** ** Making room for several slots *)

Section MakeRoomGeneral.

Variable MAX_ALLOWED : Z.

(** X13: [makeRoomFor(client, slotsNeeded)] evicts at most [slotsNeeded]
    rows and lowers the allowed count by exactly the number of tokens it
    returns; it stops early only when there is room or nobody is left
    to evict; it evicts nobody when there is room at the start, begins
    with the oldest allowed row otherwise, and only moves rows
    forward. *)
Theorem makeRoomFor_evicts_up_to (now : Z) (slotsNeeded : nat) :
  forall t, pk_ok t ->
  exists t' fin,
    makeRoomFor MAX_ALLOWED now t slotsNeeded = (t', fin) /\
    (List.length fin <= slotsNeeded)%nat /\
    Sql.count_allowed t' = Sql.count_allowed t - Z.of_nat (List.length fin) /\
    ((List.length fin < slotsNeeded)%nat ->
     Sql.count_allowed t' < MAX_ALLOWED \/ Sql.count_allowed t' = 0) /\
    (Sql.count_allowed t < MAX_ALLOWED -> t' = t /\ fin = []) /\
    (forall o, oldest_allowed t = Some o ->
       MAX_ALLOWED <= Sql.count_allowed t -> (0 < slotsNeeded)%nat ->
       hd_error fin = Some (token o)) /\
    Forall2 evolves t t'.
Proof.
  induction slotsNeeded as [|k IH]; intros t Hpk.
  - exists t, []. simpl. split; [reflexivity|]. split; [lia|].
    split; [lia|]. split; [lia|]. split; [auto|].
    split; [lia|apply rows_evolve_refl].
  - simpl. destruct (Sql.count_allowed t <? MAX_ALLOWED) eqn:E.
    + apply Z.ltb_lt in E. exists t, []. simpl.
      split; [reflexivity|]. split; [lia|]. split; [lia|].
      split; [auto|]. split; [auto|]. split; [lia|apply rows_evolve_refl].
    + apply Z.ltb_ge in E. rewrite evict_oldest_spec by assumption.
      destruct (oldest_allowed t) as [o|] eqn:Ho; simpl.
      * pose proof (count_evicted now t o Hpk Ho) as Hc. simpl in Hc.
        destruct (IH (map (rewrite_id (id o) (set_done now)) t))
          as (t' & fin & Heq & Hlen & Hcount & Hstop & _ & _ & Hev).
        { apply (pk_evicted now (Some o) t Hpk). }
        rewrite Heq. exists t', (token o :: fin). simpl List.length.
        split; [reflexivity|]. split; [lia|]. split; [lia|].
        split; [intros H; apply Hstop; lia|]. split; [lia|].
        split; [intros o' [= <-] _ _; reflexivity|].
        apply (rows_evolve_trans _ (map (rewrite_id (id o) (set_done now)) t));
          [|assumption].
        apply rows_evolve_map. intros r _. unfold rewrite_id.
        destruct (has_id (id o) r);
          [apply evolves_set_done|apply evolves_refl].
      * apply oldest_allowed_none in Ho. exists t, []. simpl.
        split; [reflexivity|]. split; [lia|]. split; [lia|].
        split; [auto|]. split; [auto|].
        split; [discriminate|apply rows_evolve_refl].
Qed.

End MakeRoomGeneral.

Lemma makeRoomFor_evicts_up_to_witness :
  exists t', makeRoomFor 2 100 drifted 3 = (t', [formatToken 1;
                                                  formatToken 2;
                                                  formatToken 3]).
Proof.
  destruct (makeRoomFor_evicts_up_to 2 100 3 drifted)
    as (t' & fin & Heq & _).
  - apply pk_okb_sound. reflexivity.
  - exists t'. rewrite Heq. vm_compute in Heq. now injection Heq as _ <-.
Defined.

(** ** Splitting at the first separator *)

Lemma indexOf_none_free (c : ascii) (s : string) :
  JsString.indexOf c s = None -> free_of c s = true.
Proof.
  induction s as [|a s IH]; simpl; [reflexivity|].
  destruct (Ascii.eqb a c); [discriminate|].
  destruct (JsString.indexOf c s); [discriminate|]. intros _. now apply IH.
Qed.

Lemma slice_from_start (i : nat) (s : string) :
  JsString.slice 0 i s = JsString.take i s.
Proof.
  unfold JsString.slice. rewrite Nat.sub_0_r. now destruct s.
Qed.

Lemma indexOf_split (c : ascii) (s : string) (i : nat) :
  JsString.indexOf c s = Some i ->
  free_of c (JsString.slice 0 i s) = true /\
  s = String.append (JsString.slice 0 i s)
        (String c (JsString.drop (i + 1) s)).
Proof.
  rewrite slice_from_start.
  revert i. induction s as [|a s IH]; simpl; intros i; [discriminate|].
  destruct (Ascii.eqb a c) eqn:E.
  - intros [= <-]. simpl. apply Ascii.eqb_eq in E. subst a. now split.
  - destruct (JsString.indexOf c s) as [j|]; [|discriminate].
    intros [= <-]. simpl. rewrite E. simpl.
    destruct (IH j eq_refl) as [Hfree Heq].
    split; [assumption|]. now rewrite <- Heq.
Qed.

Lemma indexOf_first (c : ascii) (u p : string) :
  free_of c u = true ->
  JsString.indexOf c (String.append u (String c p)) = Some (String.length u)
  /\ JsString.slice 0 (String.length u) (String.append u (String c p)) = u
  /\ JsString.drop (String.length u + 1) (String.append u (String c p)) = p.
Proof.
  rewrite slice_from_start.
  induction u as [|a u IH]; simpl; intros H.
  - rewrite Ascii.eqb_refl. now repeat split.
  - apply andb_true_iff in H. destruct H as [Ha Hu].
    apply negb_true_iff in Ha. rewrite Ha.
    destruct (IH Hu) as (H1 & H2 & H3).
    rewrite H1, H2, H3. now repeat split.
Qed.

Lemma trim_blank (s : string) : blank s = true -> Str.trim s = EmptyString.
Proof. intros H. unfold Str.trim. now rewrite trimStart_blank. Qed.

(** ** The staff gate *)

Section StaffGate.

Variable env_STAFF_USER env_STAFF_PASS env_STAFF_REALM : option string.
Variable base64_utf8 : string -> string.

Let USER := STAFF_USER env_STAFF_USER.
Let PASS := STAFF_PASS env_STAFF_PASS.
Let configured := staffCredentialsConfigured env_STAFF_USER env_STAFF_PASS.
Let decode := decodeBasicAuth base64_utf8.
Let valid := hasValidStaffAuth env_STAFF_USER env_STAFF_PASS base64_utf8.
Let gate_of :=
  requireStaff env_STAFF_USER env_STAFF_PASS env_STAFF_REALM base64_utf8.

Lemma decoded_username_free (h : option string) (c : credentials) :
  decode h = Some c -> free_of ":" (username c) = true.
Proof.
  unfold decode, decodeBasicAuth. destruct h as [header|]; [|discriminate].
  destruct (String.eqb header EmptyString); [discriminate|].
  destruct (negb _); [discriminate|].
  destruct (String.eqb _ EmptyString); [discriminate|].
  destruct (JsString.indexOf ":" _) as [i|] eqn:E; intros [= <-]; simpl.
  - now apply indexOf_split in E.
  - now apply indexOf_none_free.
Qed.

(** X14: the user name is whatever precedes the first colon of the
    decoded header, so it never contains a colon: when [STAFF_USER]
    contains one, no header at all is accepted, and every request to a
    protected route is refused with 401. *)
Theorem colon_in_user_locks_out (h : option string) :
  configured = true -> free_of ":" USER = false ->
  valid h = false /\
  gate_of h = Unauthorized401 (STAFF_REALM env_STAFF_REALM).
Proof.
  intros Hconf Hcolon.
  assert (Hv : valid h = false).
  { unfold valid, hasValidStaffAuth. fold configured. rewrite Hconf. simpl.
    fold decode. destruct (decode h) as [c|] eqn:E; [|reflexivity].
    apply decoded_username_free in E.
    destruct (String.eqb (username c) (STAFF_USER env_STAFF_USER)) eqn:Eu;
      [|reflexivity].
    apply String.eqb_eq in Eu. fold USER in Eu. congruence. }
  split; [exact Hv|].
  unfold gate_of, requireStaff. fold configured valid.
  now rewrite Hconf, Hv.
Qed.

(** X15: with credentials configured and no colon in [STAFF_USER], a
    header is accepted exactly when, trimmed, it starts with the scheme
    [basic ] in any letter case and the rest, trimmed, is not empty and
    decodes to [STAFF_USER:STAFF_PASS]; a request without the header is
    never accepted. *)
Theorem valid_header_iff (header : string) :
  configured = true -> free_of ":" USER = true ->
  (valid (Some header) = true <->
   header <> EmptyString /\
   JsString.startsWith "basic " (JsString.toLowerCase (Str.trim header))
   = true /\
   Str.trim (JsString.drop 6 (Str.trim header)) <> EmptyString /\
   base64_utf8 (Str.trim (JsString.drop 6 (Str.trim header)))
   = String.append USER (String ":" PASS)) /\
  valid None = false.
Proof.
  intros Hconf Hfree.
  assert (Hpass : PASS <> EmptyString).
  { unfold configured, staffCredentialsConfigured in Hconf.
    apply andb_true_iff in Hconf. destruct Hconf as [_ Hp].
    apply negb_true_iff in Hp. intros H. unfold PASS in H.
    rewrite H in Hp. discriminate. }
  split.
  2:{ unfold valid, hasValidStaffAuth. fold configured.
      now rewrite Hconf. }
  unfold valid, hasValidStaffAuth. fold configured. rewrite Hconf.
  cbn [negb]. unfold decodeBasicAuth.
  destruct (String.eqb_spec header EmptyString) as [He|He].
  { split; [discriminate|]. intros [H _]. contradiction. }
  destruct (JsString.startsWith "basic "
              (JsString.toLowerCase (Str.trim header))) eqn:Es; cbn [negb].
  2:{ split; [discriminate|]. intros (_ & H & _). discriminate. }
  destruct (String.eqb_spec
              (Str.trim (JsString.drop 6 (Str.trim header))) EmptyString)
    as [Eb|Eb].
  { split; [discriminate|]. intros (_ & _ & H & _). contradiction. }
  set (decoded := base64_utf8 (Str.trim (JsString.drop 6 (Str.trim header)))).
  fold USER PASS.
  destruct (JsString.indexOf ":" decoded) as [i|] eqn:Ei;
    cbn [username password].
  - destruct (indexOf_split ":" decoded i Ei) as [_ Hsplit].
    split.
    + intros H. apply andb_true_iff in H. destruct H as [Hu Hp].
      apply String.eqb_eq in Hu, Hp.
      repeat split; try assumption. rewrite Hsplit. now rewrite Hu, Hp.
    + intros (_ & _ & _ & Hd).
      destruct (indexOf_first ":" USER PASS Hfree) as (H1 & H2 & H3).
      rewrite Hd in Ei. rewrite H1 in Ei. injection Ei as <-.
      rewrite Hd, H2, H3. now rewrite !String.eqb_refl.
  - split.
    + intros H. apply andb_true_iff in H. destruct H as [_ Hp].
      apply String.eqb_eq in Hp. now contradiction Hpass.
    + intros (_ & _ & _ & Hd).
      destruct (indexOf_first ":" USER PASS Hfree) as (H1 & _).
      rewrite Hd in Ei. rewrite H1 in Ei. discriminate.
Qed.

(** X16: when [STAFF_USER] or [STAFF_PASS] is unset, empty or made of
    white space only, the gate answers 503 to every request, whatever
    its header. *)
Theorem unconfigured_gate_is_closed (h : option string) :
  blank (env_or_empty env_STAFF_USER) = true \/
  blank (env_or_empty env_STAFF_PASS) = true ->
  configured = false /\ valid h = false /\ gate_of h = Unavailable503.
Proof.
  intros Hblank.
  assert (Hconf : configured = false).
  { unfold configured, staffCredentialsConfigured, STAFF_USER, STAFF_PASS.
    destruct Hblank as [H|H]; rewrite (trim_blank _ H); simpl;
      [reflexivity|apply andb_false_r]. }
  split; [exact Hconf|].
  unfold valid, hasValidStaffAuth, gate_of, requireStaff.
  fold configured. rewrite Hconf. now split.
Qed.

End StaffGate.

Lemma colon_in_user_locks_out_witness :
  hasValidStaffAuth user_with_colon pass_pw plain_decoder header_colon
  = false.
Proof.
  apply (colon_in_user_locks_out user_with_colon pass_pw None plain_decoder
           header_colon); reflexivity.
Defined.

Lemma valid_header_iff_witness :
  hasValidStaffAuth user_ada pass_pw plain_decoder header_ada = true.
Proof.
  apply (valid_header_iff user_ada pass_pw plain_decoder
           "  bAsIc   ada:p:w " eq_refl eq_refl).
  repeat split; try reflexivity; discriminate.
Defined.

Lemma unconfigured_gate_is_closed_witness :
  requireStaff user_ada pass_blank None plain_decoder header_ada
  = Unavailable503.
Proof.
  apply (unconfigured_gate_is_closed user_ada pass_blank None
           plain_decoder header_ada).
  right. reflexivity.
Defined.

Section Served.

Variable MAX_ALLOWED : Z.
Variable env_STAFF_USER env_STAFF_PASS env_STAFF_REALM : option string.
Variable base64_utf8 : string -> string.

(** X17: on the protected server a request reaches its handler exactly
    when it is a check-in or carries a valid staff header; any other
    request is answered by the gate, emits nothing and leaves the store
    as it was, and the two listing routes never change the store. *)
Theorem serve_guards_staff_routes (now : Z) (h : option string)
    (q : route) (d : db) :
  ((exists b, q = ApiCheckin b) \/
   hasValidStaffAuth env_STAFF_USER env_STAFF_PASS base64_utf8 h = true ->
   serve MAX_ALLOWED env_STAFF_USER env_STAFF_PASS env_STAFF_REALM
     base64_utf8 now h q d
   = dispatch MAX_ALLOWED now q d) /\
  ((forall b, q <> ApiCheckin b) ->
   hasValidStaffAuth env_STAFF_USER env_STAFF_PASS base64_utf8 h = false ->
   exists g,
     g <> NextHandler /\
     serve MAX_ALLOWED env_STAFF_USER env_STAFF_PASS env_STAFF_REALM
       base64_utf8 now h q d
     = (Denied g, [], d)) /\
  (q = ApiPatients \/ q = ApiAllowed ->
   snd (dispatch MAX_ALLOWED now q d) = d /\
   snd (fst (dispatch MAX_ALLOWED now q d)) = []).
Proof.
  split; [|split].
  - intros [(b & ->)|Hv]; [reflexivity|].
    assert (Hg : requireStaff env_STAFF_USER env_STAFF_PASS env_STAFF_REALM
                   base64_utf8 h = NextHandler).
    { unfold requireStaff. unfold hasValidStaffAuth in Hv |- *.
      destruct (negb (staffCredentialsConfigured env_STAFF_USER
                        env_STAFF_PASS)); [discriminate|].
      now rewrite Hv. }
    unfold serve. rewrite Hg. now destruct q.
  - intros Hq Hv.
    assert (Hg : requireStaff env_STAFF_USER env_STAFF_PASS env_STAFF_REALM
                   base64_utf8 h <> NextHandler).
    { unfold requireStaff.
      destruct (negb (staffCredentialsConfigured env_STAFF_USER
                        env_STAFF_PASS)); [discriminate|].
      rewrite Hv. discriminate. }
    exists (requireStaff env_STAFF_USER env_STAFF_PASS env_STAFF_REALM
              base64_utf8 h).
    split; [exact Hg|].
    unfold serve.
    destruct q as [b| | |tok|tok|b]; [now contradiction (Hq b)| | | | |];
      destruct (requireStaff env_STAFF_USER env_STAFF_PASS env_STAFF_REALM
                  base64_utf8 h); try reflexivity; now contradiction Hg.
  - intros [->| ->]; simpl; [now split|].
    destruct (getAllowedPatients MAX_ALLOWED (tokens d)); now split.
Qed.

End Served.

Lemma serve_guards_staff_routes_witness :
  serve 2 user_ada pass_pw None plain_decoder 100 None
    (ApiRemove "T1") (mkDb two_allowed None)
  = (Denied (Unauthorized401 "Clinic Staff Access"), [],
     mkDb two_allowed None) /\
  serve 2 user_ada pass_pw None plain_decoder 100 header_ada
    (ApiRemove "T1") (mkDb two_allowed None)
  = dispatch 2 100 (ApiRemove "T1") (mkDb two_allowed None).
Proof.
  split.
  - destruct (serve_guards_staff_routes 2 user_ada pass_pw None
                plain_decoder 100 None (ApiRemove "T1")
                (mkDb two_allowed None)) as (_ & Hdenied & _).
    destruct Hdenied as (g & _ & Heq); [discriminate|reflexivity|].
    rewrite Heq. vm_compute in Heq. now injection Heq as <-.
  - apply (serve_guards_staff_routes 2 user_ada pass_pw None
             plain_decoder 100 header_ada (ApiRemove "T1")
             (mkDb two_allowed None)).
    right. reflexivity.
Defined.

(** ** The command line of the load test *)

Module LoadTestFacts.

Import LoadTest.

(** An argument as the shell passes [--key=value], and a bare [--key]. *)
Lemma flag_starts_with_dashes (rest : string) :
  JsString.startsWith "--" (String "-" (String "-" rest)) = true.
Proof.
  unfold JsString.startsWith. simpl.
  destruct (ascii_dec "-" "-") as [_|H]; [|now contradiction H].
  now destruct rest.
Qed.

Lemma key_value_splits (key value : string) :
  free_of "=" key = true ->
  JsString.indexOf "="
    (String "-" (String "-" (String.append key (String "=" value))))
  = Some (2 + String.length key)%nat /\
  JsString.slice 2 (2 + String.length key)
    (String "-" (String "-" (String.append key (String "=" value))))
  = key /\
  JsString.drop (2 + String.length key + 1)
    (String "-" (String "-" (String.append key (String "=" value))))
  = value.
Proof.
  intros Hfree.
  destruct (indexOf_first "=" key value Hfree) as (H1 & H2 & H3).
  rewrite slice_from_start in H2.
  split; [|split].
  - simpl. now rewrite H1.
  - unfold JsString.slice.
    replace (2 + String.length key - 2)%nat with (String.length key) by lia.
    simpl. exact H2.
  - simpl. exact H3.
Qed.

Lemma bare_flag_has_no_equals (key : string) :
  free_of "=" key = true ->
  JsString.indexOf "=" (String "-" (String "-" key)) = None.
Proof.
  intros H. simpl.
  assert (Hk : JsString.indexOf "=" key = None).
  { induction key as [|a k IH]; simpl in *; [reflexivity|].
    apply andb_true_iff in H. destruct H as [Ha Hk].
    apply negb_true_iff in Ha. rewrite Ha. now rewrite IH. }
  now rewrite Hk.
Qed.

(** The loop over a command line that continues with an option (or
    ends): the part before is parsed on its own. *)
Lemma parseArgs_loop_app (n : nat) :
  forall (args rest : list string) (o : options),
  (List.length args <= n)%nat ->
  match rest with
  | [] => True
  | a :: _ => JsString.startsWith "--" a = true
  end ->
  parseArgs_loop (args ++ rest) o = parseArgs_loop rest (parseArgs_loop args o).
Proof.
  induction n as [|n IH]; intros args rest o Hlen Hrest.
  - destruct args; [reflexivity|simpl in Hlen; lia].
  - destruct args as [|arg args]; [reflexivity|].
    simpl in Hlen. simpl.
    destruct (negb (JsString.startsWith "--" arg)); [apply IH; [lia|auto]|].
    destruct (JsString.indexOf "=" arg); [apply IH; [lia|auto]|].
    destruct args as [|next args]; simpl.
    + destruct rest as [|a rest]; [reflexivity|].
      rewrite Hrest. now rewrite andb_false_r.
    + destruct (negb (String.eqb next EmptyString)
                && negb (JsString.startsWith "--" next)).
      * apply IH; [simpl in Hlen; lia|auto].
      * apply (IH (next :: args)); [simpl in *; lia|auto].
Qed.

(** No command line gives the object an own property [__proto__]. *)
Lemma set_keeps_proto (key : string) (v : optval) (o : options) :
  own o "__proto__" = None -> own (set key v o) "__proto__" = None.
Proof.
  intros H. unfold set.
  destruct (String.eqb key "__proto__") eqn:E; [exact H|].
  simpl. now rewrite E.
Qed.

Lemma parseArgs_loop_keeps_proto (n : nat) :
  forall (args : list string) (o : options),
  (List.length args <= n)%nat ->
  own o "__proto__" = None ->
  own (parseArgs_loop args o) "__proto__" = None.
Proof.
  induction n as [|n IH]; intros args o Hlen Ho.
  - destruct args; [exact Ho|simpl in Hlen; lia].
  - destruct args as [|arg args]; [exact Ho|].
    simpl in Hlen. simpl.
    destruct (negb (JsString.startsWith "--" arg)); [apply IH; [lia|auto]|].
    destruct (JsString.indexOf "=" arg);
      [apply IH; [lia|now apply set_keeps_proto]|].
    destruct args as [|next args]; [now apply set_keeps_proto|].
    destruct (negb (String.eqb next EmptyString)
              && negb (JsString.startsWith "--" next)).
    + apply IH; [simpl in Hlen; lia|now apply set_keeps_proto].
    + apply IH; [simpl in *; lia|now apply set_keeps_proto].
Qed.

Lemma get_own_key (key : string) (v : optval) (o : options) :
  key <> "__proto__"%string -> get (set key v o) key = Some v.
Proof.
  intros Hk. unfold set, get.
  destruct (String.eqb_spec key "__proto__"); [contradiction|].
  simpl. now rewrite String.eqb_refl.
Qed.

(** X18: arguments that do not start with [--] and stand before the
    first option are ignored, and a command line of such arguments only
    sets no option.  A setting whose key is no property name of
    [Object.prototype] then comes from the environment or, if it has
    none, from the fallback; for a key that is one, [options[key]] is
    the inherited property, never undefined, and neither the environment
    nor the fallback is read. *)
Theorem positional_arguments_are_ignored (native_text : string -> string)
    (pos args : list string) (env : string -> option string)
    (key envKey : string) (fallback : option string) :
  Forall (fun a => JsString.startsWith "--" a = false) pos ->
  parseArgs (pos ++ args) = parseArgs args /\
  parseArgs pos = [] /\
  (inherited key = false ->
   getStringOption native_text (parseArgs pos) env key envKey fallback
   = match env envKey with
     | Some e => Some e
     | None => fallback
     end) /\
  (inherited key = true ->
   getStringOption native_text (parseArgs pos) env key envKey fallback
   = Some (native_text key)).
Proof.
  intros Hpos.
  assert (Hskip : forall rest o,
            parseArgs_loop (pos ++ rest) o = parseArgs_loop rest o).
  { induction Hpos as [|a pos Ha _ IH]; intros rest o; [reflexivity|].
    simpl. rewrite Ha. simpl. apply IH. }
  split; [apply Hskip|].
  assert (Hnone : parseArgs pos = []).
  { unfold parseArgs. rewrite <- (app_nil_r pos). now rewrite Hskip. }
  split; [exact Hnone|]. rewrite Hnone.
  unfold getStringOption, get. simpl.
  split; intros ->; reflexivity.
Qed.

Lemma positional_arguments_are_ignored_witness :
  parseArgs ["run"%string; "now"%string; "--requests=5"%string]
  = parseArgs ["--requests=5"%string].
Proof.
  apply (positional_arguments_are_ignored (fun k => k)
           ["run"%string; "now"%string]
           ["--requests=5"%string] (fun _ => None) "requests" "R" None).
  repeat constructor.
Defined.

(** X19: an option written last as [--key=value] (no [=] in the key)
    wins, unless the key is [__proto__]: it overrides earlier settings
    of the key and what the environment says, and [getStringOption]
    returns [value].  The key [__proto__] is never set: whatever the
    command line, [getStringOption] returns for it the text of the
    inherited property. *)
Theorem last_key_value_wins (native_text : string -> string)
    (args : list string) (key value : string)
    (env : string -> option string) (envKey : string)
    (fallback : option string) :
  free_of "=" key = true ->
  let arg := String "-" (String "-" (String.append key (String "=" value))) in
  (key <> "__proto__"%string ->
   get (parseArgs (args ++ [arg])) key = Some (OptString value) /\
   getStringOption native_text (parseArgs (args ++ [arg])) env key envKey
     fallback
   = Some value) /\
  (key = "__proto__"%string ->
   getStringOption native_text (parseArgs (args ++ [arg])) env key envKey
     fallback
   = Some (native_text "__proto__"%string)).
Proof.
  intros Hfree arg.
  destruct (key_value_splits key value Hfree) as (H1 & H2 & H3).
  split.
  - intros Hk.
    assert (Hget : get (parseArgs (args ++ [arg])) key
                   = Some (OptString value)).
    { unfold parseArgs.
      rewrite (parseArgs_loop_app (List.length args));
        [|lia|apply flag_starts_with_dashes].
      unfold arg. cbn [parseArgs_loop].
      rewrite flag_starts_with_dashes. cbn [negb].
      rewrite H1, H2, H3. now apply get_own_key. }
    split; [exact Hget|].
    unfold getStringOption. now rewrite Hget.
  - intros ->. unfold getStringOption, get, parseArgs.
    now rewrite (parseArgs_loop_keeps_proto (List.length (args ++ [arg]))).
Qed.

Lemma last_key_value_wins_witness :
  getStringOption (fun k => k)
    (parseArgs ["--target=a"%string; "--target=http://b"%string])
    (fun _ => Some "c"%string) "target" "LOAD_TEST_TARGET" None
  = Some "http://b"%string.
Proof.
  apply (last_key_value_wins (fun k => k) ["--target=a"%string] "target"
           "http://b" (fun _ => Some "c"%string) "LOAD_TEST_TARGET" None).
  - reflexivity.
  - discriminate.
Defined.

(** X20: a flag written last without a value (no [=] in its name, and
    not [__proto__]) is read as [true] by [getBooleanOption], whatever
    the environment and the fallback say; written as [--key value], with
    a non-empty value that does not start with [--], it takes that
    value, which counts as true exactly when it is [1], [true], [yes] or
    [on] in any letter case. *)
Theorem flags_read_as_booleans (native_text : string -> string)
    (args : list string) (key value : string)
    (env : string -> option string) (envKey : string) (fallback : bool) :
  free_of "=" key = true -> key <> "__proto__"%string ->
  getBooleanOption native_text
    (parseArgs (args ++ [String "-" (String "-" key)]))
    env key envKey fallback
  = true /\
  (value <> EmptyString -> JsString.startsWith "--" value = false ->
   getBooleanOption native_text
     (parseArgs (args ++ [String "-" (String "-" key); value]))
     env key envKey fallback
   = existsb (String.eqb (JsString.toLowerCase value))
       ["1"%string; "true"%string; "yes"%string; "on"%string]).
Proof.
  intros Hfree Hk.
  pose proof (bare_flag_has_no_equals key Hfree) as Hnone.
  split.
  - unfold getBooleanOption, getStringOption, parseArgs.
    rewrite (parseArgs_loop_app (List.length args));
      [|lia|apply flag_starts_with_dashes].
    cbn [parseArgs_loop]. rewrite flag_starts_with_dashes. cbn [negb].
    rewrite Hnone. cbn [JsString.drop].
    rewrite (get_own_key key OptTrue _ Hk). reflexivity.
  - intros Hne Hnd.
    unfold getBooleanOption, getStringOption, parseArgs.
    rewrite (parseArgs_loop_app (List.length args));
      [|lia|apply flag_starts_with_dashes].
    cbn [parseArgs_loop]. rewrite flag_starts_with_dashes. cbn [negb].
    rewrite Hnone, Hnd.
    destruct (String.eqb_spec value EmptyString) as [E|_];
      [contradiction|].
    cbn [negb andb JsString.drop].
    rewrite (get_own_key key (OptString value) _ Hk). reflexivity.
Qed.

Lemma flags_read_as_booleans_witness :
  getBooleanOption (fun k => k)
    (parseArgs ["--requests"%string; "7"%string;
                "--ignore-failures"%string])
    (fun _ => Some "no"%string) "ignore-failures"
    "LOAD_TEST_IGNORE_FAILURES" false
  = true.
Proof.
  apply (flags_read_as_booleans (fun k => k)
           ["--requests"%string; "7"%string]
           "ignore-failures" "x"
           (fun _ => Some "no"%string) "LOAD_TEST_IGNORE_FAILURES" false).
  - reflexivity.
  - discriminate.
Defined.

End LoadTestFacts.
